(** * seoul-metro: station-name resolution and presentation logic

    A shallow embedding of [main.py]: the name normaliser [norm], the
    name map built by [build_map], the query resolver (exact match, then
    [difflib.get_close_matches]), the envelope parser [parse_xml], the
    paginated fetcher [fetch_xml_full], the loader [load_all], the choice
    of the API key and the four sections of the page (closures, status,
    lengths, amenities).  The one-hour cache, the HTTP transport and the
    layout of the Streamlit widgets are outside it.

    Python values are modelled as follows.
    - [str] is a sequence of Unicode code points: [list N].
    - a table is the list of its rows, a row a [gmap] from column name to
      cell; the dictionaries inside [difflib] are [gmap]s as well.  The
      name map and the decoded XML dicts, whose order the program can
      see, are insertion-ordered association lists.
    - the set [raw] of [build_map] is a [gset]; its iteration order, which
      Python leaves unspecified, is a parameter of the statements.
    - code that can raise returns a [result]: a value or an exception. *)

From Stdlib Require Import ZArith QArith DecimalPos Lia.
From stdpp Require Import gmap gmultiset strings list sorting.

Set Warnings "-register-all".

Local Open Scope N_scope.

(** ** Strings *)

Abbreviation char := N.
Abbreviation str := (list N).

(** Literals are written as UTF-8 text and decoded to code points. *)
Fixpoint bytes_of (s : string) : list N :=
  match s with
  | EmptyString => []
  | String a s' => Ascii.N_of_ascii a :: bytes_of s'
  end.

Fixpoint utf8_decode (bs : list N) : str :=
  match bs with
  | [] => []
  | b0 :: r0 =>
    if b0 <? 0x80 then b0 :: utf8_decode r0 else
    match r0 with
    | [] => []
    | b1 :: r1 =>
      if b0 <? 0xE0 then ((b0 - 0xC0) * 64 + (b1 - 0x80)) :: utf8_decode r1 else
      match r1 with
      | [] => []
      | b2 :: r2 =>
        if b0 <? 0xF0
        then (((b0 - 0xE0) * 64 + (b1 - 0x80)) * 64 + (b2 - 0x80)) :: utf8_decode r2
        else
          match r2 with
          | [] => []
          | b3 :: r3 =>
            ((((b0 - 0xF0) * 64 + (b1 - 0x80)) * 64 + (b2 - 0x80)) * 64 + (b3 - 0x80))
              :: utf8_decode r3
          end
      end
    end
  end.

Definition py (s : string) : str := utf8_decode (bytes_of s).

Definition LF : char := 10.
Definition LPAREN : char := 40.
Definition RPAREN : char := 41.
(** The syllable U+C5ED, "station". *)
Definition YEOK : char := 0xC5ED.

(** [str.isspace] on one character, which is what [str.strip()] removes. *)
Definition isspace (c : char) : bool :=
  ((9 <=? c) && (c <=? 13)) || ((28 <=? c) && (c <=? 32))
  || (c =? 0x85) || (c =? 0xA0) || (c =? 0x1680)
  || ((0x2000 <=? c) && (c <=? 0x200A))
  || (c =? 0x2028) || (c =? 0x2029) || (c =? 0x202F) || (c =? 0x205F)
  || (c =? 0x3000).

Fixpoint lstrip (s : str) : str :=
  match s with
  | [] => []
  | c :: t => if isspace c then lstrip t else s
  end.

Definition rstrip (s : str) : str := rev (lstrip (rev s)).

(** [s.strip()] *)
Definition strip (s : str) : str := rstrip (lstrip s).

(** [s.replace(c, "")] for a one-character pattern [c]. *)
Definition replace_empty (c : char) (s : str) : str :=
  List.filter (fun x => negb (x =? c)) s.

(** ** The normaliser *)

Module Re.

(** [dot_lazy_close t]: the pattern tail [.*?\)] matches a prefix of [t].
    The lazy star tries [\)] first and otherwise lets [.] take one
    character; [.] takes anything but a line feed. *)
Fixpoint dot_lazy_close (t : str) : bool :=
  match t with
  | [] => false
  | c :: t' =>
    if c =? RPAREN then true
    else if c =? LF then false
    else dot_lazy_close t'
  end.

(** [re.sub(r"\(.*?\)", "", s)] as a left-to-right scan.  Outside a match
    a ['('] opens one when the tail matches; inside a match characters
    are dropped up to and including the first [')']. *)
Fixpoint sub_parens (inside : bool) (s : str) : str :=
  match s with
  | [] => []
  | c :: t =>
    if inside then sub_parens (negb (c =? RPAREN)) t
    else if (c =? LPAREN) && dot_lazy_close t then sub_parens true t
    else c :: sub_parens false t
  end.

End Re.

(** [norm(name)] for a [str] argument, on which [str(name)] is the
    identity. *)
Definition norm (name : str) : str :=
  strip (replace_empty YEOK (Re.sub_parens false name)).

(** The normaliser as the specification words it: every span from a ['(']
    to the next [')'] goes, whatever lies between. *)
Module Spec.

Definition has_close (t : str) : bool := existsb (fun c => c =? RPAREN) t.

Fixpoint delete_spans (inside : bool) (s : str) : str :=
  match s with
  | [] => []
  | c :: t =>
    if inside then delete_spans (negb (c =? RPAREN)) t
    else if (c =? LPAREN) && has_close t then delete_spans true t
    else c :: delete_spans false t
  end.

Definition norm_spec (s : str) : str :=
  strip (replace_empty YEOK (delete_spans false s)).

End Spec.

(** ** Exceptions *)

Inductive exn :=
  | KeyError | ValueError | TypeError | AttributeError | StopIteration
  | ExpatError | ConnectionError.

Inductive result (A : Type) :=
  | Ok (a : A)
  | Raise (e : exn).
Arguments Ok {A} a.
Arguments Raise {A} e.

#[global] Instance result_ret : MRet result := fun A a => Ok a.
#[global] Instance result_bind : MBind result := fun A B f m =>
  match m with
  | Ok a => f a
  | Raise e => Raise e
  end.

(** ** Digits: [str.isdigit], [int(str)] and [str(int)] *)

Module Unicode.

(** The code points of the zero of every run of ten decimal digits
    (general category Nd), Unicode 14.0. *)
Definition decimal_zeros : list N :=
  [ 0x30; 0x660; 0x6f0; 0x7c0; 0x966; 0x9e6; 0xa66; 0xae6; 0xb66; 0xbe6;
    0xc66; 0xce6; 0xd66; 0xde6; 0xe50; 0xed0; 0xf20; 0x1040; 0x1090;
    0x17e0; 0x1810; 0x1946; 0x19d0; 0x1a80; 0x1a90; 0x1b50; 0x1bb0;
    0x1c40; 0x1c50; 0xa620; 0xa8d0; 0xa900; 0xa9d0; 0xa9f0; 0xaa50;
    0xabf0; 0xff10; 0x104a0; 0x10d30; 0x11066; 0x110f0; 0x11136; 0x111d0;
    0x112f0; 0x11450; 0x114d0; 0x11650; 0x116c0; 0x11730; 0x118e0;
    0x11950; 0x11c50; 0x11d50; 0x11da0; 0x16a60; 0x16ac0; 0x16b50;
    0x1d7ce; 0x1d7d8; 0x1d7e2; 0x1d7ec; 0x1d7f6; 0x1e140; 0x1e2f0;
    0x1e950; 0x1fbf0 ].

(** The characters of numeric type Digit that are not decimal
    (superscripts, circled digits, ...): first code point, its value and
    the length of the run. *)
Definition digit_runs : list (N * N * N) :=
  [ (0xb2, 2, 2); (0xb9, 1, 1); (0x1369, 1, 9); (0x19da, 1, 1);
    (0x2070, 0, 1); (0x2074, 4, 6); (0x2080, 0, 10); (0x2460, 1, 9);
    (0x2474, 1, 9); (0x2488, 1, 9); (0x24ea, 0, 1); (0x24f5, 1, 9);
    (0x24ff, 0, 1); (0x2776, 1, 9); (0x2780, 1, 9); (0x278a, 1, 9);
    (0x10a40, 1, 4); (0x10e60, 1, 9); (0x11052, 1, 9); (0x1f100, 0, 1);
    (0x1f101, 0, 10) ].

(** [Py_UNICODE_TODECIMAL] *)
Definition to_decimal (c : char) : option N :=
  (fun z => c - z) <$> List.find (fun z => (z <=? c) && (c <? z + 10)) decimal_zeros.

(** [Py_UNICODE_TODIGIT] *)
Definition to_digit (c : char) : option N :=
  match to_decimal c with
  | Some d => Some d
  | None =>
    (fun '(z, v, _) => v + (c - z)) <$>
      List.find (fun '(z, _, n) => (z <=? c) && (c <? z + n)) digit_runs
  end.

End Unicode.

(** [s.isdigit()] *)
Definition isdigit (s : str) : bool :=
  match s with
  | [] => false
  | _ => forallb (fun c => bool_decide (is_Some (Unicode.to_digit c))) s
  end.

Module Int.

(** [Py_ISSPACE]: the ASCII white space of the C locale. *)
Definition c_isspace (c : char) : bool := (c =? 32) || ((9 <=? c) && (c <=? 13)).

(** [_PyUnicode_TransformDecimalAndSpaceToASCII]: white space becomes a
    blank, a decimal digit its ASCII digit, and the first other
    non-ASCII character becomes ['?'] and ends the buffer. *)
Fixpoint transform (s : str) : str :=
  match s with
  | [] => []
  | c :: t =>
    if c <? 127 then c :: transform t
    else if isspace c then 32 :: transform t
    else match Unicode.to_decimal c with
         | Some d => (48 + d) :: transform t
         | None => [63]
         end
  end.

Definition to_ascii (s : str) : str :=
  if forallb (fun c => c <? 128) s then s else transform s.

Fixpoint skip_spaces (s : str) : str :=
  match s with
  | c :: t => if c_isspace c then skip_spaces t else s
  | [] => []
  end.

Inductive prev := PStart | PDigit | PUnderscore.

(** The digit loop of [PyLong_FromString] in base ten: digits, with single
    underscores between them.  Yields the value and the unread rest. *)
Fixpoint scan (acc : N) (p : prev) (s : str) : option (N * str) :=
  let finish := match p with PDigit => Some (acc, s) | _ => None end in
  match s with
  | [] => finish
  | c :: t =>
    if (48 <=? c) && (c <=? 57) then scan (10 * acc + (c - 48)) PDigit t
    else if c =? 95 then
      match p with
      | PDigit => scan acc PUnderscore t
      | _ => None
      end
    else finish
  end.

(** [int(s)] for a [str]; the interpreter's limit on the number of
    digits is taken as switched off. *)
Definition of_str (s : str) : result Z :=
  let a := skip_spaces (to_ascii s) in
  let '(neg, a) :=
    match a with
    | 43 :: t => (false, t)
    | 45 :: t => (true, t)
    | _ => (false, a)
    end in
  match scan 0 PStart a with
  | None => Raise ValueError
  | Some (n, rest) =>
    match skip_spaces rest with
    | [] => Ok (if neg then (- Z.of_N n)%Z else Z.of_N n)
    | _ => Raise ValueError
    end
  end.

Fixpoint uint_digits (d : Decimal.uint) : str :=
  match d with
  | Decimal.Nil => []
  | Decimal.D0 d => 48 :: uint_digits d
  | Decimal.D1 d => 49 :: uint_digits d
  | Decimal.D2 d => 50 :: uint_digits d
  | Decimal.D3 d => 51 :: uint_digits d
  | Decimal.D4 d => 52 :: uint_digits d
  | Decimal.D5 d => 53 :: uint_digits d
  | Decimal.D6 d => 54 :: uint_digits d
  | Decimal.D7 d => 55 :: uint_digits d
  | Decimal.D8 d => 56 :: uint_digits d
  | Decimal.D9 d => 57 :: uint_digits d
  end.

(** [str(n)] for an [int]. *)
Definition to_str (n : Z) : str :=
  match Z.to_int n with
  | Decimal.Pos d => uint_digits d
  | Decimal.Neg d => 45 :: uint_digits d
  end.

End Int.

(** ** Decoded XML and the envelope parser *)

(** What [xmltodict.parse] produces: text, [None] for an empty element, a
    dict of children, and a list where an element repeats. *)
Inductive xml :=
  | XStr (s : str)
  | XNone
  | XDict (d : list (str * xml))
  | XList (l : list xml).

(** Insertion-ordered dictionaries with [str] keys. *)
Module Dict.

Fixpoint get {V} (d : list (str * V)) (k : str) : option V :=
  match d with
  | [] => None
  | (k', v) :: d' => if decide (k' = k) then Some v else get d' k
  end.

Definition keys {V} (d : list (str * V)) : list str := d.*1.

(** [d.setdefault(k, []).append(r)] *)
Fixpoint setdefault_append (d : list (str * list str)) (k r : str)
  : list (str * list str) :=
  match d with
  | [] => [(k, [r])]
  | (k', v) :: d' =>
    if decide (k' = k) then (k', v ++ [r]) :: d'
    else (k', v) :: setdefault_append d' k r
  end.

End Dict.

(** [int(x)] *)
Definition py_int (x : xml) : result Z :=
  match x with
  | XStr s => Int.of_str s
  | _ => Raise TypeError
  end.

(** [parse_xml(text)], from the mapping [p] that [xmltodict.parse(text)]
    gives. *)
Definition parse_xml (p : list (str * xml)) : result (xml * Z) :=
  match p with
  | [] => Raise StopIteration
  | (root, XDict body) :: _ =>
    let rows := default (XList []) (Dict.get body (py "row")) in
    let rows := match rows with XDict _ => XList [rows] | _ => rows end in
    match Dict.get body (py "list_total_count") with
    | None => Raise KeyError
    | Some t => total ← py_int t; mret (rows, total)
    end
  | (root, _) :: _ => Raise AttributeError
  end.

(** ** The paginated fetcher *)

(** [range(start, stop, step)] *)
Definition py_range (start stop step : Z) : result (list Z) :=
  if (step =? 0)%Z then Raise ValueError
  else
    let len :=
      if (0 <? step)%Z then ((stop - start + step - 1) / step)%Z
      else ((start - stop - step - 1) / (- step))%Z in
    Ok ((fun i : nat => (start + Z.of_nat i * step)%Z) <$> seq 0 (Z.to_nat len)).

(** [rows.extend(add)] *)
Definition list_extend (rows add : xml) : result xml :=
  match rows with
  | XList l =>
    match add with
    | XList l' => Ok (XList (l ++ l'))
    | XStr s => Ok (XList (l ++ ((fun c => XStr [c]) <$> s)))
    | XDict d => Ok (XList (l ++ ((fun kv => XStr kv.1) <$> d)))
    | XNone => Raise TypeError
    end
  | _ => Raise AttributeError
  end.

Section Fetcher.

(** The decoded body answered to [GET base/start/end/]; a network or a
    decoding failure is an exception. *)
Variable get : Z -> Z -> result (list (str * xml)).

Definition fetch_page (chunk total : Z)
    (st : result (list (Z * Z) * xml)) (start : Z)
  : result (list (Z * Z) * xml) :=
  '(log, rows) ← st;
  let end_ := Z.min (start + chunk - 1) total in
  body ← get start end_;
  '(add, _) ← parse_xml body;
  rows ← list_extend rows add;
  mret (log ++ [(start, end_)], rows).

(** [fetch_xml_full(endpoint, chunk)]: the ranges requested, in order,
    and the rows handed to [pd.DataFrame]. *)
Definition fetch_xml_full (chunk : Z) : result (list (Z * Z) * xml) :=
  body ← get 1%Z 1%Z;
  '(rows, total) ← parse_xml body;
  starts ← py_range 2 (total + 1) chunk;
  foldl (fetch_page chunk total) (Ok ([(1, 1)%Z], rows)) starts.

End Fetcher.

(** ** Tables *)

(** A row holds, per column, text or [None]; a column the row lacks reads
    as NaN. *)
Abbreviation record := (gmap (list N) (option (list N))).
Abbreviation DataFrame := (list (gmap (list N) (option (list N)))).

Inductive value :=
  | VStr (s : str)
  | VNone
  | VNaN.

#[global] Instance value_eq_dec : EqDecision value.
Proof. solve_decision. Defined.

Definition cell (r : record) (col : str) : value :=
  match r !! col with
  | Some (Some s) => VStr s
  | Some None => VNone
  | None => VNaN
  end.

(** [col in df.columns] *)
Definition has_column (df : DataFrame) (col : str) : bool :=
  existsb (fun r : record => bool_decide (is_Some (r !! col))) df.

(** [df[col]] *)
Definition column (df : DataFrame) (col : str) : list value :=
  (fun r => cell r col) <$> df.

Definition dropna (vs : list value) : list str :=
  omap (fun v => match v with VStr s => Some s | _ => None end) vs.

(** [df[df[col].isin(targets)]] *)
Definition isin (targets : list str) (v : value) : bool :=
  match v with
  | VStr s => bool_decide (s ∈ targets)
  | _ => false
  end.

Definition select (df : DataFrame) (col : str) (targets : list str) : DataFrame :=
  List.filter (fun r => isin targets (cell r col)) df.

(** ** The name map *)

Definition name_columns : list str :=
  [py "STN_NM"; py "SBWY_STNS_NM"; py "STATION_NAME"].

(** The set [raw] after the first loop of [build_map]. *)
Definition raw_names (dfs : list DataFrame) : gset (list N) :=
  foldl (fun raw df =>
    foldl (fun raw col =>
      if has_column df col then raw ∪ list_to_set (dropna (column df col))
      else raw) raw name_columns) ∅ dfs.

(** The second loop of [build_map], over [raw] in the order [order]. *)
Definition n2r_from (order : list str) : list (str * list str) :=
  foldl (fun n2r r => Dict.setdefault_append n2r (norm r) r) [] order.

Definition build_map (dfs : list DataFrame) : list (str * list str) :=
  n2r_from (elements (raw_names dfs)).

(** ** [difflib]: sequence similarity and the closest match

    [SequenceMatcher] with [isjunk=None] and [autojunk=True], which is how
    [get_close_matches] builds it; [a] is the candidate and [b] the word.
    Indices and sizes are natural numbers.  The score [2.0*M/T] is kept as
    the exact fraction; the comparisons of the doubles agree with those of
    the fractions as long as the products of the summed lengths [T] stay
    below 2^52. *)

Module Difflib.

Local Open Scope nat_scope.

Abbreviation block := (nat * nat * nat)%type.

(** [__chain_b]: the positions of every element of [b], without the
    elements that autojunk finds popular. *)
Definition chain_b (b : str) : gmap N (list nat) :=
  let b2j :=
    foldl (fun (m : gmap N (list nat)) '(i, elt) =>
             <[elt := default [] (m !! elt) ++ [i]]> m) ∅ (imap pair b) in
  let n := length b in
  if 200 <=? n then
    let ntest := n / 100 + 1 in
    filter (fun kv : N * list nat => ¬ (ntest < length kv.2)) b2j
  else b2j.

(** [bjunk] is empty when [isjunk] is [None]. *)
Definition isbjunk (c : N) : bool := false.

Section SequenceMatcher.

Variables a b : str.

(** [j2len.get(j-1, 0)]; no key is negative. *)
Definition j2len_get_pred (j2len : gmap nat nat) (j : nat) : nat :=
  match j with
  | O => 0
  | S j' => default 0 (j2len !! j')
  end.

(** The inner loop of [find_longest_match], over the positions [js] of
    [a[i]] in [b]. *)
Fixpoint scan_positions (i blo bhi : nat) (j2len : gmap nat nat)
    (js : list nat) (st : gmap nat nat * block) : gmap nat nat * block :=
  match js with
  | [] => st
  | j :: js' =>
    if j <? blo then scan_positions i blo bhi j2len js' st
    else if bhi <=? j then st
    else
      let '(newj2len, (besti, bestj, bestsize)) := st in
      let k := j2len_get_pred j2len j + 1 in
      scan_positions i blo bhi j2len js'
        (<[j := k]> newj2len,
         if bestsize <? k then (i + 1 - k, j + 1 - k, k)
         else (besti, bestj, bestsize))
  end.

(** One turn of [for i in range(alo, ahi)]: [newj2len] starts empty and
    takes the place of [j2len].  [get_matching_blocks] only asks for rows
    within [a], where [a !! i] is [Some a[i]]. *)
Definition scan_row (blo bhi : nat) (st : gmap nat nat * block) (i : nat)
  : gmap nat nat * block :=
  let js := match a !! i with
            | Some c => default [] (chain_b b !! c)
            | None => []
            end in
  scan_positions i blo bhi st.1 js (∅, st.2).

(** [a[i] == b[j]] *)
Definition same (i j : nat) : bool :=
  match a !! i, b !! j with
  | Some x, Some y => (x =? y)%N
  | _, _ => false
  end.

(** [isbjunk(b[j])] *)
Definition junk_at (j : nat) : bool :=
  match b !! j with
  | Some y => isbjunk y
  | None => false
  end.

(** The two [while] loops that grow the match to the left and to the
    right, over elements whose junk status is [junk]; each runs at
    most [n] times. *)
Fixpoint extend_left (junk : bool) (alo blo n : nat) (m : block) : block :=
  match n with
  | O => m
  | S n' =>
    let '(besti, bestj, bestsize) := m in
    if (alo <? besti) && (blo <? bestj)
       && eqb (junk_at (bestj - 1)) junk && same (besti - 1) (bestj - 1)
    then extend_left junk alo blo n' (besti - 1, bestj - 1, bestsize + 1)
    else m
  end.

Fixpoint extend_right (junk : bool) (ahi bhi n : nat) (m : block) : block :=
  match n with
  | O => m
  | S n' =>
    let '(besti, bestj, bestsize) := m in
    if (besti + bestsize <? ahi) && (bestj + bestsize <? bhi)
       && eqb (junk_at (bestj + bestsize)) junk
       && same (besti + bestsize) (bestj + bestsize)
    then extend_right junk ahi bhi n' (besti, bestj, bestsize + 1)
    else m
  end.

(** [find_longest_match(alo, ahi, blo, bhi)]: the rows, then the four
    [while] loops, each with the greatest number of turns it can take. *)
Definition find_longest_match (alo ahi blo bhi : nat) : block :=
  let m := (foldl (scan_row blo bhi) (∅, (alo, blo, 0)) (seq alo (ahi - alo))).2 in
  let m := extend_left false alo blo (m.1.1 - alo) m in
  let m := extend_right false ahi bhi (ahi - (m.1.1 + m.2)) m in
  let m := extend_left true alo blo (m.1.1 - alo) m in
  extend_right true ahi bhi (ahi - (m.1.1 + m.2)) m.

(** The [while queue] loop of [get_matching_blocks]; the head of
    [queue] is the element [queue.pop()] takes.  [fuel] bounds the
    number of turns. *)
Fixpoint blocks_loop (fuel : nat) (queue : list (nat * nat * nat * nat))
    (matching_blocks : list block) : list block :=
  match fuel with
  | O => matching_blocks
  | S fuel' =>
    match queue with
    | [] => matching_blocks
    | (alo, ahi, blo, bhi) :: queue =>
      let '(i, j, k) := find_longest_match alo ahi blo bhi in
      if k =? 0 then blocks_loop fuel' queue matching_blocks
      else
        let queue :=
          if (alo <? i) && (blo <? j) then (alo, i, blo, j) :: queue else queue in
        let queue :=
          if (i + k <? ahi) && (j + k <? bhi) then (i + k, ahi, j + k, bhi) :: queue
          else queue in
        blocks_loop fuel' queue (matching_blocks ++ [(i, j, k)])
    end
  end.

(** [x <= y] on triples, the order of [matching_blocks.sort()]. *)
Definition block_leb (x y : block) : bool :=
  let '(i1, j1, k1) := x in
  let '(i2, j2, k2) := y in
  (i1 <? i2) || ((i1 =? i2) && ((j1 <? j2) || ((j1 =? j2) && (k1 <=? k2)))).

(** One turn of the loop that merges adjacent blocks; the state is
    [non_adjacent] and the block [(i1, j1, k1)]. *)
Definition collapse (st : list block * block) (blk : block) : list block * block :=
  let '(non_adjacent, (i1, j1, k1)) := st in
  let '(i2, j2, k2) := blk in
  if (i1 + k1 =? i2) && (j1 + k1 =? j2) then (non_adjacent, (i1, j1, k1 + k2))
  else ((if k1 =? 0 then non_adjacent else non_adjacent ++ [(i1, j1, k1)]),
        (i2, j2, k2)).

(** [get_matching_blocks()].  Each turn of the queue loop shrinks the
    total weight of the queue, which starts at [2 * la + 1]. *)
Definition get_matching_blocks : list block :=
  let la := length a in
  let lb := length b in
  let matching_blocks := blocks_loop (2 * la + 1) [(0, la, 0, lb)] [] in
  let sorted := merge_sort (fun x y => Is_true (block_leb x y)) matching_blocks in
  let '(non_adjacent, (i1, j1, k1)) := foldl collapse ([], (0, 0, 0)) sorted in
  let non_adjacent :=
    if k1 =? 0 then non_adjacent else non_adjacent ++ [(i1, j1, k1)] in
  non_adjacent ++ [(la, lb, 0)].

(** [_calculate_ratio(matches, length)] *)
Definition calculate_ratio (matches length : nat) : Q :=
  if length =? 0 then 1%Q
  else (inject_Z (2 * Z.of_nat matches) / inject_Z (Z.of_nat length))%Q.

(** [sum(triple[-1] for triple in self.get_matching_blocks())] *)
Definition matches : nat := sum_list_with snd get_matching_blocks.

Definition ratio : Q := calculate_ratio matches (length a + length b).

(** [fullbcount]: how often each element occurs in [b]. *)
Definition fullbcount : gmap N Z :=
  foldl (fun (m : gmap N Z) elt => <[elt := (default 0 (m !! elt) + 1)%Z]> m) ∅ b.

(** One turn of the loop of [quick_ratio] over [a]; the state is [avail]
    and [matches]. *)
Definition quick_step (st : gmap N Z * nat) (elt : N) : gmap N Z * nat :=
  let '(avail, matches) := st in
  let numb := match avail !! elt with
              | Some n => n
              | None => default 0%Z (fullbcount !! elt)
              end in
  (<[elt := (numb - 1)%Z]> avail, if (0 <? numb)%Z then matches + 1 else matches).

Definition quick_matches : nat := (foldl quick_step (∅, 0) a).2.

Definition quick_ratio : Q := calculate_ratio quick_matches (length a + length b).

Definition real_quick_ratio : Q :=
  calculate_ratio (length a `min` length b) (length a + length b).

End SequenceMatcher.

(** [x > y] on [str]: by code point, a proper prefix being smaller. *)
Fixpoint str_gt (x y : str) : bool :=
  match x, y with
  | [], _ => false
  | _ :: _, [] => true
  | c :: x', d :: y' => (d <? c)%N || ((c =? d)%N && str_gt x' y')
  end.

(** [x > y] on [(score, key)] tuples. *)
Definition tuple_gt (x y : Q * str) : bool :=
  if Qeq_bool x.1 y.1 then str_gt x.2 y.2 else negb (Qle_bool x.1 y.1).

(** [max(it, default=None)], which is what [heapq.nlargest(1, it)]
    evaluates. *)
Definition py_max (l : list (Q * str)) : option (Q * str) :=
  match l with
  | [] => None
  | x :: l' => Some (foldl (fun best item => if tuple_gt item best then item else best) x l')
  end.

(** The list [result] that the loop of [get_close_matches] collects. *)
Definition scored (word : str) (possibilities : list str) (cutoff : Q)
  : list (Q * str) :=
  foldl (fun result x =>
           if Qle_bool cutoff (real_quick_ratio x word)
              && Qle_bool cutoff (quick_ratio x word)
              && Qle_bool cutoff (ratio x word)
           then result ++ [(ratio x word, x)]
           else result) [] possibilities.

(** [get_close_matches(word, possibilities, n=1, cutoff=cutoff)], for a
    [cutoff] within [[0, 1]]. *)
Definition get_close_matches (word : str) (possibilities : list str) (cutoff : Q)
  : list str :=
  match py_max (scored word possibilities cutoff) with
  | Some (_, x) => [x]
  | None => []
  end.

End Difflib.

(** ** The resolver *)

(** The value of [targets] after lines 74-79, for a map [nmap] and a
    [query]; the page runs them for a non-empty query only. *)
Definition resolve_targets (nmap : list (str * list str)) (query : str) : list str :=
  let key := norm query in
  match Dict.get nmap key with
  | Some targets => targets
  | None =>
    match Difflib.get_close_matches key (Dict.keys nmap) (2 # 5)%Q with
    | x :: _ => default [] (Dict.get nmap x)
    | [] => []
    end
  end.

(** ** Presentation: lengths and amenities *)

(** [str(v)] *)
Definition py_str (v : value) : str :=
  match v with
  | VStr s => s
  | VNone => py "None"
  | VNaN => py "nan"
  end.

Definition int_of_value (v : value) : result Z :=
  match v with
  | VStr s => Int.of_str s
  | VNone => Raise TypeError
  | VNaN => Raise ValueError
  end.

Module Presenter.

(** [lambda v: f"{int(v)//1000} m" if str(v).isdigit() else "-"] *)
Definition length_text (v : value) : result str :=
  if isdigit (py_str v) then
    n ← int_of_value v; mret (Int.to_str (n / 1000)%Z ++ py " m")
  else mret (py "-").

(** [out["PLF_PBADMS"].apply(...)] *)
Definition length_column (show_d : DataFrame) : result (list str) :=
  mapM length_text (column show_d (py "PLF_PBADMS")).

Definition fmap : list (str * str) :=
  [ (py "EL", py "엘리베이터"); (py "WL", py "휠체어리프트");
    (py "PARKING", py "주차장"); (py "BICYCLE", py "자전거보관소");
    (py "CIM", py "무인민원발급기"); (py "EXCHANGE", py "환전소");
    (py "TRAIN", py "열차매표"); (py "CULTURE", py "문화공간");
    (py "PLACE", py "유휴공간"); (py "FDROOM", py "수유실") ].

(** [[v for k, v in fmap.items() if row.get(k) == "Y"]] *)
Definition avail (row : record) : list str :=
  (List.filter (fun kv : str * str =>
     bool_decide (cell row kv.1 = VStr (py "Y"))) fmap).*2.

Inductive amenity_view :=
  | SectionSkipped
  | NoInfo
  | Available (labels : list str)
  | NoneAvailable.

(** The amenity section for the resolved [targets]. *)
Definition amenities (df_conv : DataFrame) (targets : list str) : amenity_view :=
  if has_column df_conv (py "STATION_NAME") then
    match select df_conv (py "STATION_NAME") targets with
    | [] => NoInfo
    | row :: _ =>
      match avail row with
      | [] => NoneAvailable
      | labels => Available labels
      end
    end
  else SectionSkipped.

End Presenter.

(** ** Presentation: closures, status and lengths *)

(** What a section puts on the page after its header. *)
Inductive widget :=
  | Info (msg : str)
  | Success (msg : str)
  | Warning (msg : str)
  | Table (columns : list str) (rows : list (list value)).

Module Sections.

(** [show[[c1, ..., cn]]], for rows [show] taken from the frame [df]: the
    columns looked up are those of [df]. *)
Definition project (df show : DataFrame) (cols : list str)
  : result (list (list value)) :=
  if forallb (has_column df) cols
  then Ok ((fun r : record => cell r <$> cols) <$> show)
  else Raise KeyError.

Definition closure_columns : list str :=
  [py "CLSG_PLC"; py "BGNG_YMD"; py "END_YMD"; py "RPLC_PATH"].

(** Lines 89-95. *)
Definition closures (df_close : DataFrame) (targets : list str)
  : result (list widget) :=
  if has_column df_close (py "SBWY_STNS_NM") then
    match select df_close (py "SBWY_STNS_NM") targets with
    | [] => mret [Info (py "폐쇄 정보 없음")]
    | show_c =>
      t ← project df_close show_c closure_columns;
      mret [Table closure_columns t]
    end
  else mret [].

Definition status_columns : list str :=
  [py "ELVTR_NM"; py "OPR_SEC"; py "INSTL_PSTN"; py "USE_YN"].

(** [show_s[show_s["USE_YN"] != "사용가능"]], once the column is there. *)
Definition out_of_service (show_s : DataFrame) : DataFrame :=
  List.filter
    (fun r : record => negb (bool_decide (cell r (py "USE_YN") = VStr (py "사용가능"))))
    show_s.

(** Lines 98-109. *)
Definition status (df_status : DataFrame) (targets : list str)
  : result (list widget) :=
  if has_column df_status (py "STN_NM") then
    match select df_status (py "STN_NM") targets with
    | [] => mret [Info (py "정보 없음")]
    | show_s =>
      if has_column df_status (py "USE_YN") then
        match out_of_service show_s with
        | [] => mret [Success (py "🟢 모든 시설 정상 작동")]
        | bad =>
          t ← project df_status bad status_columns;
          mret [Warning (py "🚫 작동 중지 시설"); Table status_columns t]
        end
      else Raise KeyError
    end
  else mret [].

Definition length_columns : list str :=
  [py "EQPMNT"; py "NO"; py "PLF_PBADMS"; py "OPR_SEC"].

(** Lines 112-121. *)
Definition lengths (df_depth : DataFrame) (targets : list str)
  : result (list widget) :=
  if has_column df_depth (py "SBWY_STNS_NM") then
    match select df_depth (py "SBWY_STNS_NM") targets with
    | [] => mret [Info (py "정보 없음")]
    | show_d =>
      out ← project df_depth show_d length_columns;
      texts ← Presenter.length_column show_d;
      mret [Table length_columns
              (zip_with (fun row t => <[2%nat := VStr t]> row) out texts)]
    end
  else mret [].

End Sections.

(** ** The four data sets and the API key *)

Section Loader.

(** The decoded body answered for an endpoint and a range. *)
Variable get : str -> Z -> Z -> result (list (str * xml)).

(** The body of [load_all], run once per hour by the cache: the request
    log and the rows of each data set. *)
Definition load_all
  : result ((list (Z * Z) * xml) * (list (Z * Z) * xml)
            * (list (Z * Z) * xml) * (list (Z * Z) * xml)) :=
  c ← fetch_xml_full (get (py "TbSubwayLineDetail")) 99;
  s ← fetch_xml_full (get (py "SeoulMetroFaciInfo")) 999;
  d ← fetch_xml_full (get (py "SmrtScnFcltsInfo")) 999;
  v ← fetch_xml_full (get (py "TbSeoulmetroStConve")) 999;
  mret (c, s, d, v).

End Loader.

(** Truth value of [os.getenv] and of a text secret: [None] and the empty
    string are false. *)
Definition truthy (k : option str) : bool :=
  match k with
  | Some (_ :: _) => true
  | _ => false
  end.

(** [get_api_key()], from the value of the environment variable and the
    outcome of the look-up in the secrets store (a text, or an
    exception). *)
Definition get_api_key (env_key : option str) (secret : result str) : option str :=
  if truthy env_key then env_key
  else match secret with
       | Ok k => Some k
       | Raise _ => None
       end.

(** Lines 18-21: the key the page goes on with, or [None] when it stops. *)
Definition api_key (env_key : option str) (secret : result str) : option str :=
  let key := get_api_key env_key secret in
  if truthy key then key else None.

(** ** Predicates used in the statements *)

(** No ['('] of [s] starts a match of the pattern. *)
Fixpoint unmatched (s : str) : bool :=
  match s with
  | [] => true
  | c :: t => negb ((c =? LPAREN) && Re.dot_lazy_close t) && unmatched t
  end.

(** No line feed lies between a ['('] of [s] and the next [')'] after it. *)
Definition no_lf_in_span (s : str) : Prop :=
  forall pre mid post,
    s = pre ++ LPAREN :: mid ++ RPAREN :: post -> RPAREN ∉ mid -> LF ∉ mid.

(** [r] is a name that some table of [dfs] holds in one of the name
    columns. *)
Definition drawn (dfs : list DataFrame) (r : str) : Prop :=
  exists (df : DataFrame) (col : str) (row : record),
    df ∈ dfs /\ col ∈ name_columns /\ row ∈ df /\ row !! col = Some (Some r).

(** What the second loop of [build_map] maintains: distinct keys, every
    list non-empty and filed under the normal form of its members. *)
Definition well_filed (n2r : list (str * list str)) : Prop :=
  NoDup (Dict.keys n2r)
  /\ Forall (fun e : str * list str => e.2 <> [] /\ Forall (fun x => norm x = e.1) e.2) n2r.

(** [l[lo:hi]] *)
Definition slice (l : str) (lo hi : nat) : str := take (hi - lo) (drop lo l).

(** The number of elements two sequences share, as multisets. *)
Definition overlap (x y : str) : nat :=
  size (list_to_set_disj x ∩ list_to_set_disj y : gmultiset N).

(** [m] is a block of [a[alo:ahi]] and [b[blo:bhi]] on which the two
    sequences agree. *)
Definition block_ok (a b : str) (alo ahi blo bhi : nat) (m : Difflib.block) : Prop :=
  (alo <= m.1.1 /\ m.1.1 + m.2 <= ahi /\ blo <= m.1.2 /\ m.1.2 + m.2 <= bhi
   /\ forall d, d < m.2 -> Difflib.same a b (m.1.1 + d) (m.1.2 + d) = true)%nat.

Definition region_ok (r : nat * nat * nat * nat) : Prop :=
  (r.1.1.1 <= r.1.1.2 /\ r.1.2 <= r.2)%nat.

(** What [j2len] holds when row [i] of [find_longest_match] starts: for
    each [j], the length of a match that ends at [a[i-1]] and [b[j]]. *)
Definition j2len_ok (a b : str) (alo blo bhi i : nat) (j2len : gmap nat nat) : Prop :=
  forall j k, j2len !! j = Some k ->
    (1 <= k /\ k + alo <= i /\ k + blo <= j + 1 /\ j < bhi
     /\ forall d, d < k -> Difflib.same a b (i - k + d) (j + 1 - k + d) = true)%nat.

(** What a queued region can still contribute to the matches. *)
Definition region_overlap (a b : str) (r : nat * nat * nat * nat) : nat :=
  overlap (slice a r.1.1.1 r.1.1.2) (slice b r.1.2 r.2).

(** A bound on the iterations of [get_matching_blocks] that a queued
    region can cause. *)
Definition region_weight (r : nat * nat * nat * nat) : nat :=
  (2 * (r.1.1.2 - r.1.1.1) + 1)%nat.

(** The ranges [fetch_xml_full] asks for when the service declares
    [total] records: the probe [1..1], then one range per page. *)
Definition requested (total chunk : Z) : list (Z * Z) :=
  (1, 1)%Z ::
  ((fun i : nat =>
      let start := (2 + Z.of_nat i * chunk)%Z in
      (start, Z.min (start + chunk - 1) total))
     <$> seq 0 (Z.to_nat ((total - 2 + chunk) / chunk))).

(** Row [n] is within one of the ranges. *)
Definition covers (log : list (Z * Z)) (n : Z) : Prop :=
  exists lo hi, (lo, hi) ∈ log /\ (lo <= n <= hi)%Z.

Definition pairwise_disjoint (log : list (Z * Z)) : Prop :=
  forall (i j : nat) lo1 hi1 lo2 hi2,
    log !! i = Some (lo1, hi1) -> log !! j = Some (lo2, hi2) -> i <> j ->
    (hi1 < lo2 \/ hi2 < lo1)%Z.

(** The rows numbered [s..e], counted from one, of the data set [db]. *)
Definition rows_between (db : list xml) (s e : Z) : list xml :=
  take (Z.to_nat (e - s + 1)) (drop (Z.to_nat (s - 1)) db).

(** A string that [norm] has nothing to do on: no match of the pattern,
    no U+C5ED, no white space at either end. *)
Definition clean (s : str) : Prop :=
  unmatched s = true /\ (YEOK ∉ s) /\ lstrip s = s /\ rstrip s = s.



(** Of the three name columns, the table [df] has at most [col]. *)
Definition own_name_column (df : DataFrame) (col : str) : Prop :=
  forall c, c ∈ name_columns -> has_column df c = true -> c = col.

(** The four tables with the name column that their section filters on. *)
Definition section_tables (df_close df_status df_depth df_conv : DataFrame)
  : list (DataFrame * str) :=
  [ (df_close, py "SBWY_STNS_NM"); (df_status, py "STN_NM");
    (df_depth, py "SBWY_STNS_NM"); (df_conv, py "STATION_NAME") ].

(** ** Sample data for the instances below *)

Module Sample.

Definition envelope (total : str) (rows : list xml) : list (str * xml) :=
  [ (py "SmrtScnFcltsInfo",
     XDict ((py "list_total_count", XStr total) ::
            match rows with
            | [] => []
            | [r] => [(py "row", r)]
            | _ => [(py "row", XList rows)]
            end)) ].

Definition rec1 (k v : string) : xml := XDict [(py k, XStr (py v))].

Definition db3 : list xml :=
  [rec1 "NO" "1"; rec1 "NO" "2"; rec1 "NO" "3"].

(** A service that holds [db3] and answers each range with its rows. *)
Definition get3 (s e : Z) : result (list (str * xml)) :=
  Ok (envelope (py "3") (rows_between db3 s e)).

(** A service with no record at all. *)
Definition get0 (s e : Z) : result (list (str * xml)) :=
  Ok (envelope (py "0") []).

Definition status : DataFrame :=
  [ {[ py "STN_NM" := Some (py "합정(2)") ]}; {[ py "STN_NM" := Some (py "합정") ]} ].

Definition conv_row : record :=
  {[ py "STATION_NAME" := Some (py "합정") ]} ∪ {[ py "EL" := Some (py "Y") ]}
    ∪ {[ py "WL" := Some (py "N") ]}.

Definition conv : DataFrame := [conv_row].

Definition nmap : list (str * list str) :=
  [ (py "합정", [py "합정"; py "합정(2)"]); (py "신촌", [py "신촌역"]) ].

(** A row given as a list of column names and texts. *)
Definition row_of (kvs : list (string * string)) : record :=
  list_to_map ((fun kv : string * string => (py kv.1, Some (py kv.2))) <$> kvs).

Definition faci : DataFrame :=
  [ row_of [("STN_NM", "합정"); ("ELVTR_NM", "E1"); ("OPR_SEC", "B1-1F");
            ("INSTL_PSTN", "1"); ("USE_YN", "사용가능")];
    row_of [("STN_NM", "신촌"); ("ELVTR_NM", "E2"); ("OPR_SEC", "B2-B1");
            ("INSTL_PSTN", "2"); ("USE_YN", "보수중")] ].

Definition depth : DataFrame :=
  [ row_of [("SBWY_STNS_NM", "합정"); ("EQPMNT", "EV"); ("NO", "1");
            ("PLF_PBADMS", "15000"); ("OPR_SEC", "B1-1F")];
    row_of [("SBWY_STNS_NM", "합정"); ("EQPMNT", "ES"); ("NO", "2");
            ("OPR_SEC", "B2-B1")] ].

(** Every endpoint answers like [get3]. *)
Definition get_any (endpoint : str) : Z -> Z -> result (list (str * xml)) := get3.

End Sample.

(** * Properties *)

Example norm_gangnam : norm (py "강남(2호선)") = py "강남".
Proof. reflexivity. Qed.

Example norm_gangnam_station : norm (py " 강남역 (2) ") = py "강남".
Proof. reflexivity. Qed.

Example norm_nested : norm (py "((a)b)c") = py "b)c".
Proof. reflexivity. Qed.

(** ** The normaliser *)

Section Strip.

Lemma lstrip_suffix s : exists w, s = w ++ lstrip s.
Proof.
  induction s as [|c t [w Hw]]; [by exists []|].
  simpl. destruct (isspace c).
  - exists (c :: w). by rewrite Hw at 1.
  - by exists [].
Qed.

Lemma rstrip_prefix s : exists w, s = rstrip s ++ w.
Proof.
  destruct (lstrip_suffix (rev s)) as [w Hw].
  exists (rev w). unfold rstrip.
  rewrite <- rev_app_distr, <- Hw. by rewrite rev_involutive.
Qed.

Lemma lstrip_head s :
  match lstrip s with
  | [] => True
  | c :: _ => isspace c = false
  end.
Proof.
  induction s as [|c t IH]; [done|].
  simpl. by destruct (isspace c) eqn:E.
Qed.

Lemma lstrip_fixed c t : isspace c = false -> lstrip (c :: t) = c :: t.
Proof. intros H. simpl. by rewrite H. Qed.

Lemma lstrip_idem s : lstrip (lstrip s) = lstrip s.
Proof.
  pose proof (lstrip_head s) as H.
  destruct (lstrip s) as [|c t]; [done|]. by apply lstrip_fixed.
Qed.

Lemma lstrip_snoc s c : isspace c = false -> lstrip (s ++ [c]) = lstrip s ++ [c].
Proof.
  intros H. induction s as [|d t IH]; simpl.
  - by rewrite H.
  - by destruct (isspace d).
Qed.

Lemma rstrip_idem s : rstrip (rstrip s) = rstrip s.
Proof. unfold rstrip. by rewrite rev_involutive, lstrip_idem. Qed.

Lemma rstrip_cons c t : isspace c = false -> rstrip (c :: t) = c :: rstrip t.
Proof.
  intros H. unfold rstrip. simpl.
  by rewrite lstrip_snoc, rev_app_distr.
Qed.

Lemma strip_idem s : strip (strip s) = strip s.
Proof.
  unfold strip. pose proof (lstrip_head s) as H.
  destruct (lstrip s) as [|c t]; [done|].
  rewrite (rstrip_cons c t H), (lstrip_fixed _ _ H), <- (rstrip_cons c t H).
  apply rstrip_idem.
Qed.

Lemma strip_sublist s : exists w1 w2, s = w1 ++ strip s ++ w2.
Proof.
  destruct (lstrip_suffix s) as [w1 H1].
  destruct (rstrip_prefix (lstrip s)) as [w2 H2].
  exists w1, w2. unfold strip. by rewrite <- H2.
Qed.

End Strip.

Section Normaliser.

Lemma replace_empty_notin c s : c ∉ replace_empty c s.
Proof.
  unfold replace_empty. rewrite list_elem_of_In, filter_In.
  intros [_ H]. by rewrite N.eqb_refl in H.
Qed.

Lemma replace_empty_id c s : c ∉ s -> replace_empty c s = s.
Proof.
  unfold replace_empty. induction s as [|d t IH]; [done|].
  intros H. apply not_elem_of_cons in H as [Hd Ht]. simpl.
  destruct (N.eqb_spec d c); [congruence|]. simpl. by rewrite IH.
Qed.

Lemma close_after_sub t :
  Re.dot_lazy_close (Re.sub_parens false t) = true -> Re.dot_lazy_close t = true.
Proof.
  induction t as [|c t IH]; [done|]. simpl.
  destruct ((c =? LPAREN) && Re.dot_lazy_close t) eqn:E.
  - apply andb_true_iff in E as [Ec Et]. apply N.eqb_eq in Ec. by subst c.
  - simpl. destruct (c =? RPAREN); [done|]. by destruct (c =? LF).
Qed.

Lemma sub_parens_unmatched s inside : unmatched (Re.sub_parens inside s) = true.
Proof.
  revert inside. induction s as [|c t IH]; intros inside; [done|].
  simpl. destruct inside; [apply IH|].
  destruct ((c =? LPAREN) && Re.dot_lazy_close t) eqn:E; [apply IH|].
  simpl. rewrite IH, andb_true_r. apply negb_true_iff.
  destruct (c =? LPAREN); [|done]. simpl in *.
  destruct (Re.dot_lazy_close (Re.sub_parens false t)) eqn:E'; [|done].
  apply close_after_sub in E'. congruence.
Qed.

Lemma unmatched_sub_id s : unmatched s = true -> Re.sub_parens false s = s.
Proof.
  induction s as [|c t IH]; [done|]. simpl.
  intros [H1 H2]%andb_true_iff. apply negb_true_iff in H1.
  rewrite H1. f_equal. by apply IH.
Qed.

Lemma close_after_replace c t :
  c ≠ LF -> c ≠ RPAREN ->
  Re.dot_lazy_close (replace_empty c t) = true -> Re.dot_lazy_close t = true.
Proof.
  intros Hlf Hrp. unfold replace_empty.
  induction t as [|d t IH]; [done|]. simpl.
  destruct (N.eqb_spec d c) as [->|Hd]; simpl.
  - intros H. destruct (N.eqb_spec c RPAREN); [done|].
    destruct (N.eqb_spec c LF); [done|]. by apply IH.
  - destruct (d =? RPAREN); [done|]. by destruct (d =? LF).
Qed.

Lemma unmatched_replace c s :
  c ≠ LF -> c ≠ RPAREN ->
  unmatched s = true -> unmatched (replace_empty c s) = true.
Proof.
  intros Hlf Hrp. induction s as [|d t IH]; [done|].
  intros [H1 H2]%andb_true_iff. apply negb_true_iff in H1.
  unfold replace_empty in *. simpl.
  destruct (N.eqb_spec d c) as [->|Hd]; simpl; [by apply IH|].
  rewrite (IH H2), andb_true_r. apply negb_true_iff.
  destruct (d =? LPAREN); [|done]. simpl in *.
  destruct (Re.dot_lazy_close (List.filter _ t)) eqn:E'; [|done].
  apply (close_after_replace c t Hlf Hrp) in E'. congruence.
Qed.

Lemma close_app t w : Re.dot_lazy_close t = true -> Re.dot_lazy_close (t ++ w) = true.
Proof.
  induction t as [|c t IH]; [done|]. simpl.
  destruct (c =? RPAREN); [done|]. by destruct (c =? LF).
Qed.

Lemma unmatched_app_l s w : unmatched (s ++ w) = true -> unmatched s = true.
Proof.
  induction s as [|c t IH]; [done|]. simpl.
  intros [H1 H2]%andb_true_iff. rewrite (IH H2), andb_true_r.
  apply negb_true_iff. apply negb_true_iff in H1.
  destruct (c =? LPAREN); [|done]. simpl in *.
  destruct (Re.dot_lazy_close t) eqn:E; [|done].
  by rewrite (close_app t w E) in H1.
Qed.

Lemma unmatched_app_r w s : unmatched (w ++ s) = true -> unmatched s = true.
Proof.
  induction w as [|c t IH]; [done|]. simpl.
  intros [_ H2]%andb_true_iff. by apply IH.
Qed.

Lemma unmatched_strip s : unmatched s = true -> unmatched (strip s) = true.
Proof.
  destruct (strip_sublist s) as (w1 & w2 & H). intros Hs. rewrite H in Hs.
  by apply unmatched_app_r, unmatched_app_l in Hs.
Qed.

Lemma notin_strip c s : c ∉ s -> c ∉ strip s.
Proof.
  destruct (strip_sublist s) as (w1 & w2 & H). intros Hs Hc. apply Hs.
  rewrite H. set_solver.
Qed.

End Normaliser.

(** C4. Normalising twice is the same as normalising once. *)
Theorem norm_idempotent (s : str) : norm (norm s) = norm s.
Proof.
  unfold norm.
  set (y := replace_empty YEOK (Re.sub_parens false s)).
  assert (Hu : unmatched (strip y) = true).
  { apply unmatched_strip, unmatched_replace; [done..|]. apply sub_parens_unmatched. }
  rewrite (unmatched_sub_id _ Hu).
  rewrite (replace_empty_id YEOK (strip y)).
  - apply strip_idem.
  - apply notin_strip, replace_empty_notin.
Qed.

Section Refinement.

Lemma lazy_close_has_close t : Re.dot_lazy_close t = true -> Spec.has_close t = true.
Proof.
  unfold Spec.has_close. induction t as [|c t IH]; [done|]. simpl.
  destruct (c =? RPAREN); [done|]. destruct (c =? LF); [done|]. apply IH.
Qed.

Lemma has_close_lazy_close t :
  (forall mid post, t = mid ++ RPAREN :: post -> RPAREN ∉ mid -> LF ∉ mid) ->
  Spec.has_close t = true -> Re.dot_lazy_close t = true.
Proof.
  unfold Spec.has_close. induction t as [|c t IH]; [done|]. simpl. intros Hlf.
  destruct (N.eqb_spec c RPAREN) as [->|Hc]; [done|]. simpl.
  destruct (N.eqb_spec c LF) as [->|Hc'].
  - intros (d & Hd & Hd')%existsb_exists. apply N.eqb_eq in Hd'. subst d.
    apply list_elem_of_In, list_elem_of_split_l in Hd as (mid & post & -> & Hmid).
    exfalso. apply (Hlf (LF :: mid) post); [done| |left].
    apply not_elem_of_cons. by split.
  - apply IH. intros mid post -> Hmid Hin.
    apply (Hlf (c :: mid) post); [done| |by right].
    apply not_elem_of_cons. by split.
Qed.

Lemma no_lf_in_span_tail c t : no_lf_in_span (c :: t) -> no_lf_in_span t.
Proof. intros H pre mid post ->. by apply (H (c :: pre) mid post). Qed.

Lemma sub_parens_delete_spans s inside :
  no_lf_in_span s -> Re.sub_parens inside s = Spec.delete_spans inside s.
Proof.
  revert inside. induction s as [|c t IH]; intros inside Hs; [done|].
  pose proof (no_lf_in_span_tail _ _ Hs) as Ht. simpl.
  destruct inside; [by apply IH|].
  destruct (N.eqb_spec c LPAREN) as [->|Hc]; simpl; [|by rewrite IH].
  destruct (Spec.has_close t) eqn:E.
  - rewrite has_close_lazy_close; [by apply IH| |done].
    intros mid post ->. by apply (Hs [] mid post).
  - destruct (Re.dot_lazy_close t) eqn:E'.
    + apply lazy_close_has_close in E'. congruence.
    + by rewrite IH.
Qed.

End Refinement.

(** C3 (as amended). On every string in which no line feed lies between a
    ['('] and the next [')'], [norm] deletes every span from a ['('] to
    the next [')'], then every occurrence of U+C5ED wherever it stands,
    then the white space at both ends.  In particular "강남(2호선)"
    becomes "강남", and the leading U+C5ED of "역삼역" goes as well. *)
Theorem norm_deletes_spans :
  (forall s, no_lf_in_span s -> norm s = Spec.norm_spec s)
  /\ norm (py "강남(2호선)") = py "강남"
  /\ norm (py "역삼역") = py "삼".
Proof.
  split; [|by split].
  intros s Hs. unfold norm, Spec.norm_spec. by rewrite sub_parens_delete_spans.
Qed.

Lemma norm_deletes_spans_witness :
  no_lf_in_span (py "강남(2호선)")
  /\ norm (py "강남(2호선)") = Spec.norm_spec (py "강남(2호선)").
Proof.
  assert (H : no_lf_in_span (py "강남(2호선)")).
  { intros pre mid post E _ Hin.
    assert (Hs : LF ∈ py "강남(2호선)") by (rewrite E; set_solver).
    vm_compute in Hs.
    repeat (apply elem_of_cons in Hs as [Hs|Hs]; [discriminate Hs|]).
    by apply elem_of_nil in Hs. }
  split; [exact H|]. exact (proj1 norm_deletes_spans _ H).
Defined.

(** C3, as stated, fails when a line feed stands between the parentheses:
    the pattern does not match there and the span stays. *)
Lemma norm_keeps_span_across_line_feed :
  norm [LPAREN; LF; RPAREN] = [LPAREN; LF; RPAREN]
  /\ Spec.norm_spec [LPAREN; LF; RPAREN] = []
  /\ norm [LPAREN; LF; RPAREN] <> Spec.norm_spec [LPAREN; LF; RPAREN].
Proof. by repeat split. Qed.

(** ** The name map *)

Section DictFacts.

Context {V : Type}.
Implicit Types (d : list (str * V)) (k : str) (v : V).

Lemma get_elem_of d k v : Dict.get d k = Some v -> (k, v) ∈ d.
Proof.
  induction d as [|[k' v'] d IH]; [done|]. simpl.
  destruct (decide (k' = k)) as [->|]; intros H.
  - injection H as ->. left.
  - right. by apply IH.
Qed.

Lemma get_None d k : Dict.get d k = None <-> k ∉ Dict.keys d.
Proof.
  unfold Dict.keys. induction d as [|[k' v'] d IH]; simpl.
  - split; [intros _; apply not_elem_of_nil|done].
  - rewrite not_elem_of_cons. destruct (decide (k' = k)) as [->|Hne].
    + split; [done|]. by intros [? _].
    + rewrite IH. split; [by split; [apply not_eq_sym|]|by intros [_ ?]].
Qed.

Lemma elem_of_get d k v : NoDup (Dict.keys d) -> (k, v) ∈ d -> Dict.get d k = Some v.
Proof.
  unfold Dict.keys. induction d as [|[k' v'] d IH]; simpl; [by intros _ ?%elem_of_nil|].
  intros [Hk Hd]%NoDup_cons [E|Hin]%elem_of_cons.
  - injection E as <- <-. by rewrite decide_True.
  - destruct (decide (k' = k)) as [->|]; [|by apply IH].
    exfalso. apply Hk. apply list_elem_of_fmap. by exists (k, v).
Qed.

End DictFacts.

Section SetDefault.

Implicit Types (d : list (str * list str)) (k r : str).

Lemma setdefault_append_keys d k r :
  Dict.keys (Dict.setdefault_append d k r)
  = if decide (k ∈ Dict.keys d) then Dict.keys d else Dict.keys d ++ [k].
Proof.
  unfold Dict.keys. induction d as [|[k' v'] d IH]; [done|].
  cbn [Dict.setdefault_append]. rewrite !fmap_cons. cbn [fst].
  destruct (decide (k' = k)) as [->|Hne].
  - rewrite fmap_cons. cbn [fst]. by rewrite decide_True by left.
  - rewrite fmap_cons, IH. cbn [fst]. destruct (decide (k ∈ d.*1)) as [Hin|Hin].
    + by rewrite decide_True by (by right).
    + rewrite decide_False; [done|]. apply not_elem_of_cons. by split.
Qed.

Lemma setdefault_append_NoDup d k r :
  NoDup (Dict.keys d) -> NoDup (Dict.keys (Dict.setdefault_append d k r)).
Proof.
  intros H. rewrite setdefault_append_keys. case_decide; [done|].
  apply NoDup_app. split; [done|]. split; [|apply NoDup_singleton].
  intros x Hx ->%list_elem_of_singleton. done.
Qed.

Lemma setdefault_append_concat d k r :
  concat (Dict.setdefault_append d k r).*2 ≡ₚ r :: concat d.*2.
Proof.
  induction d as [|[k' v'] d IH]; [done|].
  cbn [Dict.setdefault_append].
  destruct (decide (k' = k)); rewrite !fmap_cons; cbn [concat snd].
  - rewrite <- app_assoc. symmetry. apply Permutation_middle.
  - rewrite IH. symmetry. apply Permutation_middle.
Qed.

Lemma setdefault_append_filed d r :
  well_filed d -> well_filed (Dict.setdefault_append d (norm r) r).
Proof.
  intros [Hk Hd]. split; [by apply setdefault_append_NoDup|].
  clear Hk. induction d as [|[k' v'] d IH]; simpl.
  - constructor; [|constructor]. simpl. split; [done|]. by constructor.
  - apply Forall_cons in Hd as [[Hv Hf] Hd]. simpl in *.
    destruct (decide (k' = norm r)) as [->|].
    + constructor; [|done]. simpl. split; [by destruct v'|].
      apply Forall_app. split; [done|]. by constructor.
    + constructor; [done|]. by apply IH.
Qed.

Lemma n2r_from_snoc order r :
  n2r_from (order ++ [r]) = Dict.setdefault_append (n2r_from order) (norm r) r.
Proof. unfold n2r_from. by rewrite foldl_app. Qed.

Lemma n2r_from_filed order : well_filed (n2r_from order).
Proof.
  induction order as [|r order IH] using rev_ind.
  - split; [constructor|constructor].
  - rewrite n2r_from_snoc. by apply setdefault_append_filed.
Qed.

Lemma n2r_from_concat order : concat (n2r_from order).*2 ≡ₚ order.
Proof.
  induction order as [|r order IH] using rev_ind; [done|].
  rewrite n2r_from_snoc, setdefault_append_concat, IH.
  by rewrite <- Permutation_cons_append.
Qed.

Lemma filed_member d k rs r :
  well_filed d -> (k, rs) ∈ d -> r ∈ rs -> k = norm r.
Proof.
  intros [_ Hd] Hin Hr. rewrite Forall_forall in Hd.
  destruct (Hd _ Hin) as [_ Hf]. rewrite Forall_forall in Hf.
  symmetry. by apply Hf.
Qed.

Lemma filed_nonempty d k rs : well_filed d -> Dict.get d k = Some rs -> rs <> [].
Proof.
  intros [_ Hd] Hin%get_elem_of. rewrite Forall_forall in Hd.
  by destruct (Hd _ Hin).
Qed.

Lemma n2r_from_lookup order r :
  r ∈ order -> exists rs, Dict.get (n2r_from order) (norm r) = Some rs /\ r ∈ rs.
Proof.
  intros Hr. rewrite <- (n2r_from_concat order) in Hr.
  apply list_elem_of_In, in_concat in Hr as (rs & Hin & Hrs).
  apply list_elem_of_In in Hin. apply list_elem_of_In in Hrs.
  apply list_elem_of_fmap in Hin as ([k rs'] & -> & Hin). simpl in *.
  pose proof (n2r_from_filed order) as Hf.
  rewrite (filed_member _ _ _ _ Hf Hin Hrs) in Hin.
  exists rs'. split; [|done]. apply elem_of_get; [apply Hf|done].
Qed.

End SetDefault.

Section RawNames.

Lemma elem_of_dropna_column (df : DataFrame) (col r : str) :
  r ∈ dropna (column df col) <-> exists row : record, row ∈ df /\ row !! col = Some (Some r).
Proof.
  unfold dropna, column. rewrite list_elem_of_omap. split.
  - intros (v & (row & -> & Hrow)%list_elem_of_fmap & Hv).
    exists row. split; [done|]. unfold cell in Hv.
    destruct (row !! col) as [[s|]|]; simplify_eq. done.
  - intros (row & Hrow & Hcol). exists (VStr r). split; [|done].
    apply list_elem_of_fmap. exists row. split; [|done].
    unfold cell. by rewrite Hcol.
Qed.

Lemma has_column_of_row (df : DataFrame) (col : str) (row : record) :
  row ∈ df -> is_Some (row !! col) -> has_column df col = true.
Proof.
  intros Hrow Hcol. unfold has_column. apply existsb_exists.
  exists row. split; [by apply list_elem_of_In|]. by apply bool_decide_eq_true.
Qed.

Lemma elem_of_raw_columns (df : DataFrame) (cols : list str) (acc : gset (list N)) r :
  r ∈ foldl (fun raw col =>
         if has_column df col then raw ∪ list_to_set (dropna (column df col))
         else raw) acc cols
  <-> r ∈ acc \/ exists (col : str) (row : record),
        col ∈ cols /\ row ∈ df /\ row !! col = Some (Some r).
Proof.
  revert acc. induction cols as [|col cols IH]; intros acc; simpl.
  - split; [by left|]. intros [?|(?&?&?%elem_of_nil&_)]; done.
  - rewrite IH. split.
    + intros [Hacc|(c & row & Hc & Hrow & Hr)].
      * destruct (has_column df col); [|by left].
        apply elem_of_union in Hacc as [?|Hl]; [by left|].
        apply elem_of_list_to_set, elem_of_dropna_column in Hl as (row & ? & ?).
        right. exists col, row. split; [left|done].
      * right. exists c, row. split; [by right|done].
    + intros [Hacc|(c & row & [->|Hc]%elem_of_cons & Hrow & Hr)].
      * left. destruct (has_column df col); [|done]. apply elem_of_union. by left.
      * left. rewrite (has_column_of_row df col row); [|done|by rewrite Hr].
        apply elem_of_union. right.
        apply elem_of_list_to_set, elem_of_dropna_column. by exists row.
      * right. by exists c, row.
Qed.

Lemma elem_of_raw_names (dfs : list DataFrame) (r : str) :
  r ∈ raw_names dfs <-> drawn dfs r.
Proof.
  unfold raw_names, drawn. generalize name_columns as cols. intros cols.
  enough (G : forall acc : gset (list N),
    r ∈ foldl (fun raw (df : DataFrame) =>
           foldl (fun raw col =>
             if has_column df col then raw ∪ list_to_set (dropna (column df col))
             else raw) raw cols) acc dfs
    <-> r ∈ acc \/ exists (df : DataFrame) (col : str) (row : record),
          df ∈ dfs /\ col ∈ cols /\ row ∈ df /\ row !! col = Some (Some r)).
  { rewrite G. split; [|by right]. intros [?%not_elem_of_empty|?]; done. }
  induction dfs as [|df dfs IH]; intros acc; cbn [foldl].
  - split; [by left|]. intros [?|(?&?&?&?%elem_of_nil&_)]; done.
  - rewrite IH, elem_of_raw_columns. split.
    + intros [[?|(col & row & ? & ? & ?)]|(df' & col & row & ? & ?)].
      * by left.
      * right. exists df, col, row. split; [left|done].
      * right. exists df', col, row. split; [by right|done].
    + intros [?|(df' & col & row & [->|?]%elem_of_cons & ?)].
      * left. by left.
      * left. right. by exists col, row.
      * right. by exists df', col, row.
Qed.

End RawNames.

(** C5. Whatever order the set [raw] is iterated in, a raw name drawn from
    the name columns is in the list stored under [norm r], the keys of the
    map are distinct, and no entry under another key holds it. *)
Theorem build_map_files_under_norm (dfs : list DataFrame) (order : list str) (r : str) :
  order ≡ₚ elements (raw_names dfs) ->
  drawn dfs r ->
  (exists rs, Dict.get (n2r_from order) (norm r) = Some rs /\ r ∈ rs)
  /\ NoDup (Dict.keys (n2r_from order))
  /\ (forall k rs, (k, rs) ∈ n2r_from order -> r ∈ rs -> k = norm r).
Proof.
  intros Hperm Hr. split; [|split].
  - apply n2r_from_lookup. rewrite Hperm. by apply elem_of_elements, elem_of_raw_names.
  - apply n2r_from_filed.
  - intros k rs. apply filed_member, n2r_from_filed.
Qed.

Lemma build_map_files_under_norm_witness :
  exists rs, Dict.get (build_map [Sample.status]) (py "합정") = Some rs /\ py "합정(2)" ∈ rs.
Proof.
  refine (proj1 (build_map_files_under_norm [Sample.status]
                   (elements (raw_names [Sample.status])) (py "합정(2)") _ _)).
  - reflexivity.
  - exists Sample.status, (py "STN_NM"), {[ py "STN_NM" := Some (py "합정(2)") ]}.
    split; [left|]. split; [left|]. split; [left|]. by vm_compute.
Defined.

(** ** The resolver *)

Section ClosestMatch.

Import Difflib.

Lemma scored_snoc word ps x cutoff :
  scored word (ps ++ [x]) cutoff
  = scored word ps cutoff
    ++ (if Qle_bool cutoff (real_quick_ratio x word)
           && Qle_bool cutoff (quick_ratio x word)
           && Qle_bool cutoff (ratio x word)
        then [(ratio x word, x)] else []).
Proof.
  unfold scored. rewrite foldl_app. cbn [foldl].
  destruct (_ && _); [done|by rewrite app_nil_r].
Qed.

Lemma elem_of_scored word ps cutoff (e : Q * str) :
  e ∈ scored word ps cutoff <->
  e.2 ∈ ps /\ e.1 = ratio e.2 word
  /\ Qle_bool cutoff (real_quick_ratio e.2 word) = true
  /\ Qle_bool cutoff (quick_ratio e.2 word) = true
  /\ Qle_bool cutoff (ratio e.2 word) = true.
Proof.
  induction ps as [|x ps IH] using rev_ind.
  - split; [by intros ?%elem_of_nil|by intros [?%elem_of_nil _]].
  - rewrite scored_snoc, !elem_of_app, IH, list_elem_of_singleton. split.
    + intros [(? & ?)|He]; [by split; [left|]|].
      destruct (_ && _) eqn:E; [|by apply elem_of_nil in He].
      apply list_elem_of_singleton in He as ->. simpl.
      apply andb_true_iff in E as [[E1 E2]%andb_true_iff E3].
      split; [by right|done].
    + intros ([Hin|Hx] & He & E1 & E2 & E3); [by left|].
      right. rewrite <- Hx, E1, E2, E3. simpl. apply list_elem_of_singleton.
      destruct e as [q l]; simpl in *. by rewrite He.
Qed.

Lemma py_max_elem_of l m : py_max l = Some m -> m ∈ l.
Proof.
  destruct l as [|x l]; [done|]. simpl. intros [= <-].
  revert x. induction l as [|y l IH]; intros x; simpl; [left|].
  destruct (tuple_gt y x).
  - right. apply IH.
  - specialize (IH x). apply elem_of_cons in IH as [->|?]; [left|right; by right].
Qed.

Lemma py_max_None l : py_max l = None <-> l = [].
Proof. by destruct l. Qed.

Lemma get_close_matches_cases word ps cutoff :
  (get_close_matches word ps cutoff = [] /\ scored word ps cutoff = [])
  \/ exists q x, get_close_matches word ps cutoff = [x]
       /\ py_max (scored word ps cutoff) = Some (q, x).
Proof.
  unfold get_close_matches.
  destruct (py_max (scored word ps cutoff)) as [[q x]|] eqn:E.
  - right. by exists q, x.
  - left. by apply py_max_None in E.
Qed.

Lemma get_close_matches_elem_of word ps cutoff x :
  x ∈ get_close_matches word ps cutoff -> x ∈ ps.
Proof.
  destruct (get_close_matches_cases word ps cutoff) as [[-> _]|(q & y & -> & E)].
  - by intros ?%elem_of_nil.
  - intros ->%list_elem_of_singleton.
    apply py_max_elem_of, elem_of_scored in E. apply E.
Qed.

End ClosestMatch.

(** C1. When the normalised query is a key of the name map the resolver
    returns the list stored under it; so a map that holds "합정" under the
    key "합정" answers the query "합정" with a list that contains it. *)
Theorem resolve_exact_match :
  (forall (nmap : list (str * list str)) (query : str) (rs : list str),
     Dict.get nmap (norm query) = Some rs -> resolve_targets nmap query = rs)
  /\ (forall (nmap : list (str * list str)) (rs : list str),
        Dict.get nmap (py "합정") = Some rs -> py "합정" ∈ rs ->
        py "합정" ∈ resolve_targets nmap (py "합정")).
Proof.
  assert (H : forall nmap query rs,
             Dict.get nmap (norm query) = Some rs -> resolve_targets nmap query = rs).
  { intros nmap query rs E. unfold resolve_targets. by rewrite E. }
  split; [exact H|].
  intros nmap rs E Hin. by rewrite (H nmap (py "합정") rs E).
Qed.

Lemma resolve_exact_match_witness :
  py "합정" ∈ resolve_targets Sample.nmap (py "합정").
Proof.
  refine (proj2 resolve_exact_match Sample.nmap [py "합정"; py "합정(2)"] _ _).
  - by vm_compute.
  - left.
Defined.

(** C10. In the map that [build_map] returns no list is empty and the
    lists together hold every drawn raw name exactly once, however many
    tables it comes from; hence the resolver's answer is non-empty
    whenever it finds a key, exactly or through the closest match. *)
Theorem build_map_lists_nonempty (dfs : list DataFrame) (order : list str) :
  order ≡ₚ elements (raw_names dfs) ->
  (forall k rs, (k, rs) ∈ n2r_from order -> rs <> [])
  /\ NoDup (concat (n2r_from order).*2)
  /\ (forall r, r ∈ concat (n2r_from order).*2 <-> drawn dfs r)
  /\ (forall query,
        norm query ∈ Dict.keys (n2r_from order)
        \/ Difflib.get_close_matches (norm query) (Dict.keys (n2r_from order)) (2 # 5)%Q <> [] ->
        resolve_targets (n2r_from order) query <> []).
Proof.
  intros Hperm. pose proof (n2r_from_filed order) as Hf.
  assert (Hkey : forall k, k ∈ Dict.keys (n2r_from order) ->
            exists rs, Dict.get (n2r_from order) k = Some rs /\ rs <> []).
  { intros k Hk. destruct (Dict.get (n2r_from order) k) as [rs|] eqn:E.
    - exists rs. split; [done|]. by apply (filed_nonempty (n2r_from order) k).
    - by apply get_None in E. }
  split; [|split; [|split]].
  - intros k rs Hin. apply (filed_nonempty (n2r_from order) k); [done|].
    apply elem_of_get; [apply Hf|done].
  - rewrite n2r_from_concat, Hperm. apply NoDup_elements.
  - intros r. rewrite n2r_from_concat, Hperm, elem_of_elements.
    apply elem_of_raw_names.
  - intros query Hsel. unfold resolve_targets.
    destruct (Dict.get (n2r_from order) (norm query)) as [rs|] eqn:E.
    + by apply (filed_nonempty (n2r_from order) (norm query)).
    + destruct Hsel as [Hk|Hc]; [by apply get_None in E|].
      destruct (Difflib.get_close_matches _ _ _) as [|x l] eqn:Ec; [done|].
      assert (Hx : x ∈ Dict.keys (n2r_from order)).
      { apply (get_close_matches_elem_of (norm query) _ (2 # 5)%Q).
        rewrite Ec. left. }
      destruct (Hkey x Hx) as (rs & -> & Hrs). done.
Qed.

Lemma build_map_lists_nonempty_witness :
  NoDup (concat (build_map [Sample.status]).*2).
Proof.
  refine (proj1 (proj2 (build_map_lists_nonempty [Sample.status]
                          (elements (raw_names [Sample.status])) _))).
  reflexivity.
Defined.

(** ** Presentation *)

Section Amenities.

Import Presenter.

Lemma select_has_column (df : DataFrame) (col : str) (targets : list str)
    (row : record) (rest : DataFrame) :
  select df col targets = row :: rest -> has_column df col = true.
Proof.
  intros E.
  assert (Hin : In row (select df col targets)) by (rewrite E; left; done).
  apply filter_In in Hin as [Hin Hisin].
  apply (has_column_of_row df col row); [by apply list_elem_of_In|].
  unfold isin, cell in Hisin. by destruct (row !! col) as [[?|]|].
Qed.

Lemma filter_sublist {A} (f : A -> bool) (l : list A) : List.filter f l `sublist_of` l.
Proof.
  induction l as [|x l IH]; simpl; [constructor|].
  destruct (f x); by constructor.
Qed.

Lemma elem_of_avail (row : record) (label : str) :
  label ∈ avail row <->
  exists code, (code, label) ∈ fmap /\ cell row code = VStr (py "Y").
Proof.
  unfold avail. rewrite list_elem_of_fmap. split.
  - intros ([code l] & -> & Hin). apply list_elem_of_In, filter_In in Hin as [Hin Hy].
    exists code. split; [by apply list_elem_of_In|]. by apply bool_decide_eq_true in Hy.
  - intros (code & Hin & Hy). exists (code, label). split; [done|].
    apply list_elem_of_In, filter_In. split; [by apply list_elem_of_In|].
    by apply bool_decide_eq_true.
Qed.

End Amenities.

(** C8. The amenity section looks at the first selected row only, and the
    labels it lists are those of the ten codes of [fmap] whose cell in
    that row is "Y", in the order of [fmap]; a row with EL = "Y",
    WL = "N" and every other code missing or "N" gives the elevator label
    alone. *)
Theorem amenities_first_row_flags :
  (forall (df_conv : DataFrame) (targets : list str) (row : record) (rest : DataFrame),
     select df_conv (py "STATION_NAME") targets = row :: rest ->
     Presenter.amenities df_conv targets
       = match Presenter.avail row with
         | [] => Presenter.NoneAvailable
         | labels => Presenter.Available labels
         end
     /\ Presenter.avail row `sublist_of` Presenter.fmap.*2
     /\ forall label, label ∈ Presenter.avail row <->
          exists code, (code, label) ∈ Presenter.fmap /\ cell row code = VStr (py "Y"))
  /\ length Presenter.fmap = 10%nat
  /\ (forall row : record,
        cell row (py "EL") = VStr (py "Y") ->
        cell row (py "WL") = VStr (py "N") ->
        (forall code, code ∈ Presenter.fmap.*1 ->
           code <> py "EL" -> code <> py "WL" ->
           cell row code = VNaN \/ cell row code = VStr (py "N")) ->
        Presenter.avail row = [py "엘리베이터"]).
Proof.
  split; [|split; [done|]].
  - intros df_conv targets row rest E. split; [|split].
    + unfold Presenter.amenities.
      by rewrite (select_has_column _ _ _ _ _ E), E.
    + unfold Presenter.avail. apply fmap_sublist, filter_sublist.
    + apply elem_of_avail.
  - intros row Hel Hwl Hother. unfold Presenter.avail, Presenter.fmap.
    assert (Hno : forall code, code ∈ Presenter.fmap.*1 ->
              code <> py "EL" -> code <> py "WL" ->
              bool_decide (cell row code = VStr (py "Y")) = false).
    { intros code H1 H2 H3. apply bool_decide_eq_false.
      by destruct (Hother code H1 H2 H3) as [-> | ->]. }
    cbn [List.filter fst]. rewrite Hel, Hwl.
    rewrite !Hno; [done|..]; try (by vm_compute); vm_compute;
      repeat (first [ apply list_elem_of_here | apply list_elem_of_further ]).
Qed.

Lemma amenities_first_row_flags_witness :
  Presenter.amenities Sample.conv [py "합정"] = Presenter.Available [py "엘리베이터"].
Proof.
  destruct amenities_first_row_flags as [H _].
  destruct (H Sample.conv [py "합정"] Sample.conv_row []) as [E _]; [by vm_compute|].
  rewrite E. by vm_compute.
Defined.

(** C7.  The guard is [str.isdigit], which also accepts digits that
    [int] rejects: on the superscript two (U+00B2) the rendering of a
    length raises [ValueError] instead of giving the placeholder.  On
    "15000" it gives "15 m", and on text without digits, on [None] and on
    a missing cell it gives "-". *)
Theorem length_text_superscript_raises :
  isdigit [0xB2] = true
  /\ Presenter.length_text (VStr [0xB2]) = Raise ValueError
  /\ Presenter.length_column [ {[ py "PLF_PBADMS" := Some [0xB2] ]} ] = Raise ValueError
  /\ Presenter.length_text (VStr (py "15000")) = Ok (py "15 m")
  /\ Presenter.length_text (VStr (py "12.5")) = Ok (py "-")
  /\ Presenter.length_text VNone = Ok (py "-")
  /\ Presenter.length_text VNaN = Ok (py "-").
Proof. repeat split; by vm_compute. Qed.

(** ** The envelope parser *)

(** C9 (as amended). For an envelope whose root holds a total count that
    [int] accepts, [parse_xml] returns that count and, for the rows: the
    empty list when there is no row element, a one-element list around a
    single row decoded as a dict, and the list itself when the element
    repeats.  A row element decoded as text or as [None] is returned as it
    is. *)
Theorem parse_xml_rows (root : str) (body : list (str * xml))
    (rest : list (str * xml)) (t : str) (total : Z) :
  Dict.get body (py "list_total_count") = Some (XStr t) ->
  Int.of_str t = Ok total ->
  parse_xml ((root, XDict body) :: rest)
  = Ok (match Dict.get body (py "row") with
        | None => XList []
        | Some (XDict d) => XList [XDict d]
        | Some (XList l) => XList l
        | Some (XStr s) => XStr s
        | Some XNone => XNone
        end, total).
Proof.
  intros Ht Hi. unfold parse_xml. rewrite Ht. cbn [py_int]. rewrite Hi.
  by destruct (Dict.get body (py "row")) as [[| | |]|].
Qed.

Lemma parse_xml_rows_witness :
  parse_xml (Sample.envelope (py "3") [Sample.rec1 "NO" "1"])
  = Ok (XList [Sample.rec1 "NO" "1"], 3%Z).
Proof.
  exact (parse_xml_rows (py "SmrtScnFcltsInfo")
           [(py "list_total_count", XStr (py "3")); (py "row", Sample.rec1 "NO" "1")]
           [] (py "3") 3%Z eq_refl eq_refl).
Defined.

(** C9, as stated, fails for a row element that holds text only: it is
    decoded as a string and comes back as that string, not as a list. *)
Lemma parse_xml_text_row_not_list :
  parse_xml (Sample.envelope (py "1") [XStr (py "abc")]) = Ok (XStr (py "abc"), 1%Z)
  /\ ~ exists l, parse_xml (Sample.envelope (py "1") [XStr (py "abc")]) = Ok (XList l, 1%Z).
Proof.
  split; [by vm_compute|]. intros [l H]. vm_compute in H. discriminate H.
Qed.

(** ** The fetcher *)

Section Pagination.

Local Open Scope Z_scope.

Variables (total chunk : Z).
Hypothesis chunk_pos : 1 <= chunk.

Let pages : nat := Z.to_nat ((total - 2 + chunk) / chunk).
Let start_of (i : nat) : Z := 2 + Z.of_nat i * chunk.
Let range_of (i : nat) : Z * Z :=
  (start_of i, Z.min (start_of i + chunk - 1) total).

Lemma requested_eq : requested total chunk = (1, 1) :: (range_of <$> seq 0 pages).
Proof. done. Qed.

Lemma py_range_pages :
  py_range 2 (total + 1) chunk = Ok (start_of <$> seq 0 pages).
Proof.
  unfold py_range. destruct (Z.eqb_spec chunk 0) as [E|_]; [lia|].
  destruct (Z.ltb_spec 0 chunk) as [_|E]; [|lia].
  unfold pages. by replace (total + 1 - 2 + chunk - 1) with (total - 2 + chunk) by lia.
Qed.

Lemma page_start_le (i : nat) : (i < pages)%nat -> start_of i <= total.
Proof.
  unfold pages, start_of. intros Hi.
  pose proof (Z.mul_div_le (total - 2 + chunk) chunk ltac:(lia)). nia.
Qed.

Lemma pages_reach : total <= 1 + Z.of_nat pages * chunk.
Proof.
  unfold pages.
  pose proof (Z.mul_succ_div_gt (total - 2 + chunk) chunk ltac:(lia)).
  assert ((total - 2 + chunk) / chunk <= Z.of_nat (Z.to_nat ((total - 2 + chunk) / chunk)))
    by lia.
  nia.
Qed.

Lemma requested_lookup (i : nat) lo hi :
  requested total chunk !! i = Some (lo, hi) ->
  (i = 0%nat /\ lo = 1 /\ hi = 1)
  \/ exists j : nat, i = S j /\ (j < pages)%nat /\ lo = start_of j
       /\ hi = Z.min (start_of j + chunk - 1) total.
Proof.
  rewrite requested_eq. destruct i as [|j]; simpl.
  - intros [= <- <-]. by left.
  - rewrite list_lookup_fmap. intros H. right. exists j.
    destruct (seq 0 pages !! j) as [k|] eqn:E; [|done].
    apply lookup_seq in E as [-> Hj]. simpl in H. injection H as <- <-. done.
Qed.

Lemma requested_disjoint : pairwise_disjoint (requested total chunk).
Proof.
  intros i j lo1 hi1 lo2 hi2 H1 H2 Hij.
  apply requested_lookup in H1 as [(-> & -> & ->)|(i' & -> & Hi & -> & ->)];
    apply requested_lookup in H2 as [(-> & -> & ->)|(j' & -> & Hj & -> & ->)];
    unfold start_of; [done|left; nia|right; nia|].
  destruct (decide (i' < j')%nat); [left|right]; nia.
Qed.

Lemma requested_covers n : 1 <= total -> covers (requested total chunk) n <-> 1 <= n <= total.
Proof.
  intros Htotal. split.
  - intros (lo & hi & Hin & Hn).
    apply list_elem_of_lookup in Hin as [i Hi].
    apply requested_lookup in Hi as [(-> & -> & ->)|(j & -> & Hj & -> & ->)]; [lia|].
    pose proof (page_start_le j Hj). unfold start_of in *. nia.
  - intros Hn. destruct (decide (n = 1)) as [->|Hne].
    + exists 1, 1. split; [left|lia].
    + set (i := Z.to_nat ((n - 2) / chunk)).
      pose proof (Z.mul_div_le (n - 2) chunk ltac:(lia)) as H1.
      pose proof (Z.mul_succ_div_gt (n - 2) chunk ltac:(lia)) as H2.
      assert (0 <= (n - 2) / chunk) as H3 by (apply Z.div_pos; lia).
      assert (Hi : (i < pages)%nat).
      { unfold i, pages. apply Z2Nat.inj_lt; [lia| |].
        - apply Z.div_pos; lia.
        - replace (total - 2 + chunk) with ((total - 2) + 1 * chunk) by lia.
          rewrite Z.div_add by lia.
          pose proof (Z.div_le_mono (n - 2) (total - 2) chunk ltac:(lia) ltac:(lia)). lia. }
      exists (start_of i), (Z.min (start_of i + chunk - 1) total). split.
      * rewrite requested_eq. right. apply list_elem_of_fmap. exists i.
        split; [done|]. apply elem_of_seq. lia.
      * unfold start_of, i. rewrite Z2Nat.id by done. nia.
Qed.

Variable get : Z -> Z -> result (list (str * xml)).
Variable db : list xml.
Hypothesis total_db : total = Z.of_nat (length db).
Hypothesis get_rows :
  forall s e, (s, e) ∈ requested total chunk ->
    exists body, get s e = Ok body
      /\ parse_xml body = Ok (XList (rows_between db s e), total).

Lemma fetch_pages (m : nat) :
  (m <= pages)%nat ->
  foldl (fetch_page get chunk total) (Ok ([(1, 1)], XList (take 1 db)))
        (start_of <$> seq 0 m)
  = Ok ((1, 1) :: (range_of <$> seq 0 m),
        XList (take (Z.to_nat (Z.min (1 + Z.of_nat m * chunk) total)) db)).
Proof.
  induction m as [|m IH]; intros Hm.
  - simpl. do 3 f_equal. destruct db as [|r l]; [by rewrite !take_nil|].
    simpl in total_db.
    by replace (Z.to_nat (Z.min (1 + Z.of_nat 0 * chunk) total)) with 1%nat by lia.
  - rewrite seq_S, !fmap_app, foldl_app, IH by lia. clear IH. cbn [fmap list_fmap foldl plus].
    pose proof (page_start_le m ltac:(lia)) as Hstart.
    destruct (get_rows (start_of m) (Z.min (start_of m + chunk - 1) total))
      as (body & Hget & Hparse).
    { rewrite requested_eq. right. apply list_elem_of_fmap. exists m.
      split; [done|]. apply elem_of_seq. lia. }
    unfold fetch_page. cbn [mbind result_bind]. rewrite Hget.
    cbn [mbind result_bind]. rewrite Hparse.
    cbn [mbind result_bind list_extend mret result_ret]. do 3 f_equal.
    unfold rows_between, start_of in *.
    replace (Z.to_nat (Z.min (1 + Z.of_nat m * chunk) total))
      with (Z.to_nat (2 + Z.of_nat m * chunk - 1)) by lia.
    rewrite take_take_drop. f_equal. lia.
Qed.

Lemma fetch_all :
  fetch_xml_full get chunk = Ok (requested total chunk, XList db).
Proof.
  unfold fetch_xml_full.
  destruct (get_rows 1 1) as (body & Hget & Hparse); [rewrite requested_eq; left|].
  cbn [mbind result_bind]. rewrite Hget. cbn [mbind result_bind].
  rewrite Hparse. cbn [mbind result_bind]. rewrite py_range_pages by done.
  cbn [mbind result_bind].
  replace (rows_between db 1 1) with (take 1 db) by done.
  rewrite fetch_pages by done. rewrite requested_eq. do 3 f_equal.
  apply take_ge. pose proof pages_reach. lia.
Qed.

End Pagination.

(** C6 (as amended). With a page size of at least one and a service that
    declares the number of its records and answers every requested range
    with the rows of that range, [fetch_xml_full] asks for [1..1] and then
    for [start .. min(start+chunk-1, total)] at start = 2, 2+chunk, ...;
    these ranges are pairwise disjoint, the table is the data set itself
    (each record once), and when there is at least one record the ranges
    together are exactly [1..total]. *)
Theorem fetch_pagination_coverage (get : Z -> Z -> result (list (str * xml)))
    (db : list xml) (chunk : Z) :
  (1 <= chunk)%Z ->
  (forall s e, (s, e) ∈ requested (Z.of_nat (length db)) chunk ->
     exists body, get s e = Ok body
       /\ parse_xml body = Ok (XList (rows_between db s e), Z.of_nat (length db))) ->
  fetch_xml_full get chunk = Ok (requested (Z.of_nat (length db)) chunk, XList db)
  /\ pairwise_disjoint (requested (Z.of_nat (length db)) chunk)
  /\ (db <> [] ->
      forall n, covers (requested (Z.of_nat (length db)) chunk) n
                <-> (1 <= n <= Z.of_nat (length db))%Z).
Proof.
  intros Hchunk Hget. split; [|split].
  - by apply fetch_all.
  - by apply requested_disjoint.
  - intros Hdb n. apply requested_covers; [done|].
    destruct db; [done|simpl; lia].
Qed.

Lemma fetch_pagination_coverage_witness :
  fetch_xml_full Sample.get3 2 = Ok ([(1, 1); (2, 3)]%Z, XList Sample.db3).
Proof.
  refine (proj1 (fetch_pagination_coverage Sample.get3 Sample.db3 2 _ _)); [done|].
  intros s e Hin. eexists. split; [reflexivity|].
  vm_compute in Hin.
  apply elem_of_cons in Hin as [[= -> ->]|Hin]; [by vm_compute|].
  apply elem_of_cons in Hin as [[= -> ->]|Hin]; [by vm_compute|].
  by apply elem_of_nil in Hin.
Defined.

(** C6, as stated, fails for a total of zero: the probe [1..1] is still
    requested, so row 1 is within a requested range although the range
    [1..0] is empty. *)
Lemma fetch_probe_outside_empty_range :
  fetch_xml_full Sample.get0 1 = Ok ([(1, 1)%Z], XList [])
  /\ covers [(1, 1)%Z] 1
  /\ ~ (1 <= 1 <= 0)%Z.
Proof.
  split; [by vm_compute|]. split; [|lia].
  exists 1%Z, 1%Z. split; [left|lia].
Qed.

(** ** Sequence matching *)

Section ChainB.

Import Difflib.
Local Open Scope nat_scope.

Let b2j_step (m : gmap N (list nat)) (p : nat * N) : gmap N (list nat) :=
  let '(i, elt) := p in <[elt := default [] (m !! elt) ++ [i]]> m.

Lemma b2j_positions (l : str) c js j :
  foldl b2j_step ∅ (imap pair l) !! c = Some js -> j ∈ js -> l !! j = Some c.
Proof.
  revert c js j. induction l as [|x l IH] using rev_ind; intros c js j.
  - cbn [imap foldl]. by rewrite lookup_empty.
  - rewrite imap_app, foldl_app. cbn [imap foldl b2j_step]. rewrite Nat.add_0_r.
    destruct (decide (x = c)) as [->|Hne].
    + rewrite lookup_insert_eq. intros [= <-] [Hj| ->%list_elem_of_singleton]%elem_of_app.
      * destruct (foldl b2j_step ∅ (imap pair l) !! c) as [js'|] eqn:E;
          [|by apply elem_of_nil in Hj].
        apply lookup_app_l_Some. by apply (IH c js').
      * by rewrite lookup_app_r, Nat.sub_diag.
    + rewrite lookup_insert_ne by done. intros E Hj.
      apply lookup_app_l_Some. by apply (IH c js).
Qed.

Lemma chain_b_positions (b : str) c js j :
  chain_b b !! c = Some js -> j ∈ js -> b !! j = Some c.
Proof.
  unfold chain_b. fold b2j_step. destruct (200 <=? length b).
  - intros [E _]%map_lookup_filter_Some. by apply b2j_positions.
  - apply b2j_positions.
Qed.

End ChainB.

Section LongestMatch.

Import Difflib.
Local Open Scope nat_scope.

Variables a b : str.
Variables alo ahi blo bhi : nat.

Lemma same_of_lookup i j c : a !! i = Some c -> b !! j = Some c -> same a b i j = true.
Proof. intros Ha Hb. unfold same. rewrite Ha, Hb. apply N.eqb_refl. Qed.

Lemma scan_positions_ok i c j2len js new best :
  alo <= i < ahi ->
  a !! i = Some c ->
  (forall j, j ∈ js -> b !! j = Some c) ->
  j2len_ok a b alo blo bhi i j2len ->
  j2len_ok a b alo blo bhi (S i) new ->
  block_ok a b alo ahi blo bhi best ->
  j2len_ok a b alo blo bhi (S i) (scan_positions i blo bhi j2len js (new, best)).1
  /\ block_ok a b alo ahi blo bhi (scan_positions i blo bhi j2len js (new, best)).2.
Proof.
  intros Hi Ha. revert new best.
  induction js as [|j js IH]; intros new best Hjs Hold Hnew Hbest; [done|].
  assert (Hjs' : forall j', j' ∈ js -> b !! j' = Some c) by (intros; apply Hjs; by right).
  cbn [scan_positions].
  destruct (Nat.ltb_spec j blo) as [_|Hblo]; [by apply IH|].
  destruct (Nat.leb_spec bhi j) as [_|Hbhi]; [done|].
  destruct best as [[besti bestj] bestsize].
  set (k := j2len_get_pred j2len j + 1).
  assert (Hk : 1 <= k /\ k + alo <= S i /\ k + blo <= j + 1
               /\ forall d, d < k -> same a b (S i - k + d) (j + 1 - k + d) = true).
  { assert (Hij : same a b i j = true) by (apply (same_of_lookup i j c); auto; apply Hjs; left).
    unfold k, j2len_get_pred. destruct j as [|j'].
    - repeat split; try lia. intros d Hd. rewrite <- Hij. f_equal; lia.
    - destruct (j2len !! j') as [k'|] eqn:E; simpl.
      + destruct (Hold j' k' E) as (H1 & H2 & H3 & H4 & H5).
        repeat split; try lia. intros d Hd.
        destruct (decide (d < k')) as [Hlt|Hge].
        * rewrite <- (H5 d Hlt). f_equal; lia.
        * rewrite <- Hij. f_equal; lia.
      + repeat split; try lia. intros d Hd. rewrite <- Hij. f_equal; lia. }
  destruct Hk as (Hk1 & Hk2 & Hk3 & Hk4).
  apply IH; [done|done| |].
  - intros j0 k0. destruct (decide (j = j0)) as [<-|Hne].
    + rewrite lookup_insert_eq. intros [= <-]. repeat split; try lia. done.
    + rewrite lookup_insert_ne by done. apply Hnew.
  - destruct (bestsize <? k); [|done].
    unfold block_ok. cbn [fst snd]. repeat split; try lia.
    intros d Hd. rewrite <- (Hk4 d Hd). f_equal; lia.
Qed.

Lemma j2len_ok_empty i : j2len_ok a b alo blo bhi i ∅.
Proof. intros j k. by rewrite lookup_empty. Qed.

Lemma scan_row_ok i st :
  alo <= i < ahi ->
  j2len_ok a b alo blo bhi i st.1 ->
  block_ok a b alo ahi blo bhi st.2 ->
  j2len_ok a b alo blo bhi (S i) (scan_row a b blo bhi st i).1
  /\ block_ok a b alo ahi blo bhi (scan_row a b blo bhi st i).2.
Proof.
  intros Hi Hold Hbest. unfold scan_row.
  destruct (a !! i) as [c|] eqn:Ha.
  - apply (scan_positions_ok i c); try done; try apply j2len_ok_empty.
    intros j Hj. destruct (chain_b b !! c) as [js|] eqn:E; [|by apply elem_of_nil in Hj].
    by apply (chain_b_positions b c js).
  - cbn [scan_positions fst snd]. split; [apply j2len_ok_empty|done].
Qed.

Lemma scan_rows_ok n i st :
  alo <= i -> i + n <= ahi ->
  j2len_ok a b alo blo bhi i st.1 ->
  block_ok a b alo ahi blo bhi st.2 ->
  block_ok a b alo ahi blo bhi (foldl (scan_row a b blo bhi) st (seq i n)).2.
Proof.
  revert i st. induction n as [|n IH]; intros i st Hlo Hhi Hold Hbest; [done|].
  cbn [seq foldl].
  destruct (scan_row_ok i st) as [H1 H2]; [lia|done|done|].
  apply IH; [lia|lia|done|done].
Qed.

Lemma extend_left_ok junk n m :
  block_ok a b alo ahi blo bhi m ->
  block_ok a b alo ahi blo bhi (extend_left a b junk alo blo n m).
Proof.
  revert m. induction n as [|n IH]; intros [[besti bestj] bestsize] Hm; [done|].
  cbn [extend_left].
  destruct (_ && _) eqn:E; [|done]. apply IH.
  apply andb_true_iff in E as [[[E1 E2]%andb_true_iff _]%andb_true_iff E3].
  apply Nat.ltb_lt in E1, E2.
  destruct Hm as (H1 & H2 & H3 & H4 & H5). cbn [fst snd] in *.
  unfold block_ok. cbn [fst snd]. repeat split; try lia.
  intros d Hd. destruct d as [|d].
  - rewrite <- E3. f_equal; lia.
  - rewrite <- (H5 d ltac:(lia)). f_equal; lia.
Qed.

Lemma extend_right_ok junk n m :
  block_ok a b alo ahi blo bhi m ->
  block_ok a b alo ahi blo bhi (extend_right a b junk ahi bhi n m).
Proof.
  revert m. induction n as [|n IH]; intros [[besti bestj] bestsize] Hm; [done|].
  cbn [extend_right].
  destruct (_ && _) eqn:E; [|done]. apply IH.
  apply andb_true_iff in E as [[[E1 E2]%andb_true_iff _]%andb_true_iff E3].
  apply Nat.ltb_lt in E1, E2.
  destruct Hm as (H1 & H2 & H3 & H4 & H5). cbn [fst snd] in *.
  unfold block_ok. cbn [fst snd]. repeat split; try lia.
  intros d Hd. destruct (decide (d = bestsize)) as [->|Hne]; [done|].
  apply H5. lia.
Qed.

Lemma find_longest_match_ok :
  alo <= ahi -> blo <= bhi ->
  block_ok a b alo ahi blo bhi (find_longest_match a b alo ahi blo bhi).
Proof.
  intros Ha Hb. unfold find_longest_match.
  apply extend_right_ok, extend_left_ok, extend_right_ok, extend_left_ok.
  apply scan_rows_ok; [lia|lia|apply j2len_ok_empty|].
  unfold block_ok. cbn [fst snd]. repeat split; try lia.
Qed.

End LongestMatch.

Section Overlap.

Local Open Scope nat_scope.

Lemma size_list_to_set_disj (l : str) : size (list_to_set_disj l : gmultiset N) = length l.
Proof.
  induction l as [|x l IH]; [done|].
  rewrite list_to_set_disj_cons, gmultiset_size_disj_union, gmultiset_size_singleton, IH.
  done.
Qed.

Lemma overlap_superadditive (x1 x2 y1 y2 m : str) :
  overlap x1 y1 + length m + overlap x2 y2 <= overlap (x1 ++ m ++ x2) (y1 ++ m ++ y2).
Proof.
  unfold overlap. rewrite <- (size_list_to_set_disj m), !list_to_set_disj_app.
  rewrite <- !gmultiset_size_disj_union. apply gmultiset_subseteq_size.
  multiset_solver.
Qed.

Lemma overlap_le_length (x y : str) : overlap x y <= length x `min` length y.
Proof.
  unfold overlap. apply Nat.min_glb.
  - rewrite <- (size_list_to_set_disj x). apply gmultiset_subseteq_size. multiset_solver.
  - rewrite <- (size_list_to_set_disj y). apply gmultiset_subseteq_size. multiset_solver.
Qed.

Lemma slice_split (l : str) lo i hi :
  lo <= i <= hi -> slice l lo hi = slice l lo i ++ slice l i hi.
Proof.
  intros H. unfold slice.
  replace (hi - lo) with ((i - lo) + (hi - i)) by lia.
  rewrite <- take_take_drop, drop_drop. do 3 f_equal. lia.
Qed.

Lemma slice_full (l : str) : slice l 0 (length l) = l.
Proof. unfold slice. rewrite Nat.sub_0_r. apply firstn_all. Qed.

Lemma slice_block (a b : str) alo ahi blo bhi i j k :
  block_ok a b alo ahi blo bhi (i, j, k) ->
  slice a i (i + k) = slice b j (j + k) /\ length (slice a i (i + k)) = k.
Proof.
  intros (_ & _ & _ & _ & H). cbn [fst snd] in H. unfold slice.
  replace (i + k - i) with k by lia. replace (j + k - j) with k by lia.
  assert (Hl : forall d, d < k -> take k (drop i a) !! d = take k (drop j b) !! d
                                   /\ is_Some (a !! (i + d))).
  { intros d Hd. rewrite !lookup_take_lt, !lookup_drop by done.
    specialize (H d Hd). unfold Difflib.same in H.
    destruct (a !! (i + d)) as [x|], (b !! (j + d)) as [y|]; try done.
    apply N.eqb_eq in H as ->. by split. }
  split.
  - apply list_eq. intros d. destruct (decide (d < k)) as [Hd|Hd].
    + by apply Hl.
    + by rewrite !lookup_take_ge by lia.
  - rewrite length_take, length_drop. destruct k as [|k]; [done|].
    destruct (Hl k ltac:(lia)) as [_ Hs]. apply lookup_lt_is_Some in Hs. lia.
Qed.

Lemma overlap_block (a b : str) alo ahi blo bhi i j k :
  block_ok a b alo ahi blo bhi (i, j, k) ->
  overlap (slice a alo i) (slice b blo j) + k
    + overlap (slice a (i + k) ahi) (slice b (j + k) bhi)
  <= overlap (slice a alo ahi) (slice b blo bhi).
Proof.
  intros Hm. destruct (slice_block _ _ _ _ _ _ _ _ _ Hm) as [Hs Hk].
  destruct Hm as (H1 & H2 & H3 & H4 & _). cbn [fst snd] in *.
  rewrite (slice_split a alo i ahi), (slice_split a i (i + k) ahi) by lia.
  rewrite (slice_split b blo j bhi), (slice_split b j (j + k) bhi) by lia.
  rewrite <- Hs. rewrite <- Hk at 1. apply overlap_superadditive.
Qed.

End Overlap.

Section MatchingBlocks.

Import Difflib.
Local Open Scope nat_scope.

Variables a b : str.

Lemma blocks_loop_bound fuel queue acc :
  Forall region_ok queue ->
  sum_list_with snd (blocks_loop a b fuel queue acc)
  <= sum_list_with snd acc + sum_list_with (region_overlap a b) queue.
Proof.
  revert queue acc. induction fuel as [|fuel IH]; intros queue acc Hq; [simpl; lia|].
  destruct queue as [|[[[alo ahi] blo] bhi] queue]; [simpl; lia|].
  apply Forall_cons in Hq as [[Ha Hb] Hq]. cbn [fst snd] in Ha, Hb.
  cbn [blocks_loop].
  pose proof (find_longest_match_ok a b alo ahi blo bhi Ha Hb) as Hm.
  destruct (find_longest_match a b alo ahi blo bhi) as [[i j] k].
  assert (Ho : region_overlap a b (alo, i, blo, j) + k
               + region_overlap a b (i + k, ahi, j + k, bhi)
               <= region_overlap a b (alo, ahi, blo, bhi))
    by apply (overlap_block a b alo ahi blo bhi i j k Hm).
  destruct Hm as (H1 & H2 & H3 & H4 & _). cbn [fst snd] in H1, H2, H3, H4.
  cbn [sum_list_with].
  destruct (k =? 0); [etrans; [by apply IH|lia]|].
  assert (Hleft : region_ok (alo, i, blo, j)) by (by split).
  assert (Hright : region_ok (i + k, ahi, j + k, bhi)) by (by split).
  destruct ((alo <? i) && (blo <? j)), ((i + k <? ahi) && (j + k <? bhi));
    (etrans; [apply IH; repeat (apply Forall_cons; split; [done|]); done|]);
    rewrite sum_list_with_app; cbn [sum_list_with snd]; lia.
Qed.

Lemma collapse_sum l st :
  sum_list_with snd (foldl collapse st l).1 + (foldl collapse st l).2.2
  = sum_list_with snd st.1 + st.2.2 + sum_list_with snd l.
Proof.
  revert st. induction l as [|[[i2 j2] k2] l IH]; intros [na [[i1 j1] k1]]; [simpl; lia|].
  cbn [foldl]. rewrite IH. cbn [collapse sum_list_with snd].
  destruct (_ && _); cbn [fst snd]; [lia|].
  destruct (k1 =? 0) eqn:E; [apply Nat.eqb_eq in E; lia|].
  rewrite sum_list_with_app. simpl. lia.
Qed.

Lemma matches_loop :
  matches a b
  = sum_list_with snd (blocks_loop a b (2 * length a + 1) [(0, length a, 0, length b)] []).
Proof.
  unfold matches, get_matching_blocks.
  set (loop := blocks_loop _ _ _ _ _).
  set (sorted := merge_sort _ loop).
  pose proof (collapse_sum sorted ([], (0, 0, 0))) as H.
  destruct (foldl collapse ([], (0, 0, 0)) sorted) as [na [[i1 j1] k1]].
  cbn [fst snd sum_list_with] in H.
  assert (Hs : sum_list_with snd sorted = sum_list_with snd loop).
  { unfold sorted. by rewrite merge_sort_Permutation. }
  rewrite sum_list_with_app. cbn [sum_list_with snd].
  destruct (k1 =? 0) eqn:E.
  - apply Nat.eqb_eq in E. lia.
  - rewrite sum_list_with_app. cbn [sum_list_with snd]. lia.
Qed.

(** The matches that [ratio] counts are at most the elements the two
    sequences share. *)
Lemma matches_le_overlap : matches a b <= overlap a b.
Proof.
  rewrite matches_loop.
  etrans; [apply blocks_loop_bound|].
  - repeat constructor; cbn [fst snd]; lia.
  - cbn [sum_list_with]. unfold region_overlap. cbn [fst snd].
    rewrite !slice_full. lia.
Qed.

End MatchingBlocks.

Section QuickRatio.

Import Difflib.
Local Open Scope nat_scope.

Variables a b : str.

Let B : gmultiset N := list_to_set_disj b.

Lemma fullbcount_multiplicity (l : str) c :
  default 0%Z (fullbcount l !! c) = Z.of_nat (multiplicity c (list_to_set_disj l : gmultiset N)).
Proof.
  unfold fullbcount. induction l as [|x l IH] using rev_ind.
  - cbn [foldl]. by rewrite lookup_empty, list_to_set_disj_nil, multiplicity_empty.
  - rewrite foldl_app. cbn [foldl].
    rewrite list_to_set_disj_app, list_to_set_disj_cons, list_to_set_disj_nil.
    rewrite !multiplicity_disj_union, multiplicity_empty, multiplicity_singleton.
    destruct (decide (c = x)) as [->|Hne].
    + rewrite lookup_insert_eq. cbn [default]. rewrite IH. unfold id. lia.
    + rewrite lookup_insert_ne by done. rewrite IH. lia.
Qed.

Let numb_of (avail : gmap N Z) (c : N) : Z :=
  match avail !! c with
  | Some n => n
  | None => default 0%Z (fullbcount b !! c)
  end.

Lemma overlap_snoc_lt (P : gmultiset N) x :
  multiplicity x P < multiplicity x B -> size ((P ⊎ {[+ x +]}) ∩ B) = size (P ∩ B) + 1.
Proof.
  intros H. rewrite <- (gmultiset_size_singleton x), <- gmultiset_size_disj_union.
  f_equal. multiset_solver.
Qed.

Lemma overlap_snoc_ge (P : gmultiset N) x :
  multiplicity x B <= multiplicity x P -> size ((P ⊎ {[+ x +]}) ∩ B) = size (P ∩ B).
Proof. intros H. f_equal. multiset_solver. Qed.

Lemma quick_loop (p : str) :
  let st := foldl (quick_step b) (∅, 0) p in
  (forall c, numb_of st.1 c
             = (Z.of_nat (multiplicity c B)
                - Z.of_nat (multiplicity c (list_to_set_disj p : gmultiset N)))%Z)
  /\ st.2 = overlap p b.
Proof.
  induction p as [|x p IH] using rev_ind.
  - cbn [foldl fst snd]. split.
    + intros c. unfold numb_of. rewrite lookup_empty, fullbcount_multiplicity.
      rewrite list_to_set_disj_nil, multiplicity_empty. unfold B. lia.
    + unfold overlap. rewrite list_to_set_disj_nil.
      symmetry. apply gmultiset_size_empty_iff. multiset_solver.
  - rewrite foldl_app. cbn [foldl]. cbn zeta in IH.
    destruct (foldl (quick_step b) (∅, 0) p) as [avail m].
    destruct IH as [Hn Hm]. cbn [fst snd] in Hn, Hm.
    pose proof (Hn x) as Hx. unfold numb_of in Hx.
    unfold quick_step. cbn [fst snd].
    set (numb := match avail !! x with
                 | Some n => n
                 | None => default 0%Z (fullbcount b !! x)
                 end) in *.
    split.
    + intros c. unfold numb_of.
      rewrite list_to_set_disj_app, list_to_set_disj_cons, list_to_set_disj_nil.
      rewrite !multiplicity_disj_union, multiplicity_empty, multiplicity_singleton.
      destruct (decide (c = x)) as [->|Hne].
      * rewrite lookup_insert_eq. lia.
      * rewrite lookup_insert_ne by done.
        specialize (Hn c). unfold numb_of in Hn. lia.
    + unfold overlap.
      rewrite list_to_set_disj_app, list_to_set_disj_cons, list_to_set_disj_nil.
      rewrite (right_id ∅ (⊎)). fold B.
      destruct (Z.ltb_spec 0 numb) as [Hpos|Hneg].
      * rewrite overlap_snoc_lt by lia. by rewrite Hm.
      * rewrite overlap_snoc_ge by lia. by rewrite Hm.
Qed.

Lemma quick_matches_overlap : quick_matches a b = overlap a b.
Proof. unfold quick_matches. apply quick_loop. Qed.

(** [ratio] counts no more matches than [quick_ratio], which counts no
    more than [real_quick_ratio]. *)
Lemma matches_upper_bounds :
  matches a b <= quick_matches a b /\ quick_matches a b <= length a `min` length b.
Proof.
  rewrite quick_matches_overlap. split.
  - apply matches_le_overlap.
  - apply overlap_le_length.
Qed.

End QuickRatio.

(** The three loops that the model runs on fuel have stopped by
    themselves when the fuel given is used up: more fuel changes
    nothing. *)
Section Termination.

Import Difflib.
Local Open Scope nat_scope.

Variables a b : str.

Lemma extend_left_fuel junk alo blo n extra m :
  m.1.1 - alo <= n ->
  extend_left a b junk alo blo (n + extra) m = extend_left a b junk alo blo n m.
Proof.
  revert m. induction n as [|n IH]; intros [[besti bestj] bestsize] Hn; cbn [fst] in Hn.
  - destruct extra as [|extra]; [done|]. cbn [Nat.add extend_left].
    by replace (alo <? besti) with false by (symmetry; apply Nat.ltb_ge; lia).
  - cbn [Nat.add extend_left]. destruct (_ && _); [|done]. apply IH. cbn [fst]. lia.
Qed.

Lemma extend_right_fuel junk ahi bhi n extra m :
  ahi - (m.1.1 + m.2) <= n ->
  extend_right a b junk ahi bhi (n + extra) m = extend_right a b junk ahi bhi n m.
Proof.
  revert m. induction n as [|n IH]; intros [[besti bestj] bestsize] Hn; cbn [fst snd] in Hn.
  - destruct extra as [|extra]; [done|]. cbn [Nat.add extend_right].
    by replace (besti + bestsize <? ahi) with false by (symmetry; apply Nat.ltb_ge; lia).
  - cbn [Nat.add extend_right]. destruct (_ && _); [|done]. apply IH. cbn [fst snd]. lia.
Qed.

Lemma region_weight_eq alo ahi blo bhi :
  region_weight (alo, ahi, blo, bhi) = 2 * (ahi - alo) + 1.
Proof. done. Qed.

Lemma blocks_loop_fuel fuel extra queue acc :
  Forall region_ok queue ->
  sum_list_with region_weight queue <= fuel ->
  blocks_loop a b (fuel + extra) queue acc = blocks_loop a b fuel queue acc.
Proof.
  revert queue acc. induction fuel as [|fuel IH]; intros queue acc Hq Hw.
  - destruct queue as [|[[[alo ahi] blo] bhi] queue]; [by destruct extra|].
    cbn [sum_list_with] in Hw. rewrite region_weight_eq in Hw. lia.
  - destruct queue as [|[[[alo ahi] blo] bhi] queue]; [done|].
    apply Forall_cons in Hq as [[Ha Hb] Hq]. cbn [fst snd] in Ha, Hb.
    cbn [sum_list_with] in Hw. rewrite region_weight_eq in Hw.
    cbn [Nat.add blocks_loop].
    pose proof (find_longest_match_ok a b alo ahi blo bhi Ha Hb) as Hm.
    destruct (find_longest_match a b alo ahi blo bhi) as [[i j] k].
    destruct Hm as (H1 & H2 & H3 & H4 & _). cbn [fst snd] in H1, H2, H3, H4.
    destruct (Nat.eqb_spec k 0) as [_|Hk]; [apply IH; [done|lia]|].
    assert (Hleft : region_ok (alo, i, blo, j)) by (by split).
    assert (Hright : region_ok (i + k, ahi, j + k, bhi)) by (by split).
    destruct ((alo <? i) && (blo <? j)), ((i + k <? ahi) && (j + k <? bhi));
      (apply IH; [repeat (apply Forall_cons; split; [done|]); done|]);
      cbn [sum_list_with]; rewrite ?region_weight_eq; lia.
Qed.

(** [get_matching_blocks] gives its loop fuel enough for the whole
    queue. *)
Lemma get_matching_blocks_fuel extra :
  blocks_loop a b (2 * length a + 1 + extra) [(0, length a, 0, length b)] []
  = blocks_loop a b (2 * length a + 1) [(0, length a, 0, length b)] [].
Proof.
  apply blocks_loop_fuel.
  - repeat constructor; cbn [fst snd]; lia.
  - cbn [sum_list_with]. rewrite region_weight_eq. lia.
Qed.

End Termination.

Section Scores.

Import Difflib.

Lemma calculate_ratio_mono (m m' len : nat) :
  (m <= m')%nat -> (calculate_ratio m len <= calculate_ratio m' len)%Q.
Proof.
  intros H. unfold calculate_ratio. destruct (len =? 0)%nat; [apply Qle_refl|].
  unfold Qdiv. apply Qmult_le_compat_r.
  - rewrite <- Zle_Qle. lia.
  - apply Qinv_le_0_compat. replace 0%Q with (inject_Z 0) by done.
    rewrite <- Zle_Qle. lia.
Qed.

Lemma ratio_le_quick_ratio (x word : str) : (ratio x word <= quick_ratio x word)%Q.
Proof. apply calculate_ratio_mono, matches_upper_bounds. Qed.

Lemma quick_ratio_le_real_quick_ratio (x word : str) :
  (quick_ratio x word <= real_quick_ratio x word)%Q.
Proof. apply calculate_ratio_mono, matches_upper_bounds. Qed.

(** The two cheap tests of [get_close_matches] never reject a candidate
    that the real ratio accepts. *)
Lemma elem_of_scored_ratio word ps cutoff (x : str) :
  (ratio x word, x) ∈ scored word ps cutoff <-> x ∈ ps /\ (cutoff <= ratio x word)%Q.
Proof.
  rewrite elem_of_scored. cbn [fst snd]. rewrite !Qle_bool_iff. split.
  - intros (? & _ & _ & _ & ?). done.
  - intros [Hx Hr]. split; [done|]. split; [done|].
    assert (Hq : (cutoff <= quick_ratio x word)%Q)
      by (eapply Qle_trans; [exact Hr|apply ratio_le_quick_ratio]).
    split; [|done].
    eapply Qle_trans; [exact Hq|apply quick_ratio_le_real_quick_ratio].
Qed.

Lemma tuple_gt_true (y x : Q * str) : tuple_gt y x = true -> (x.1 <= y.1)%Q.
Proof.
  unfold tuple_gt. destruct (Qeq_bool y.1 x.1) eqn:E.
  - intros _. apply Qeq_bool_iff in E. rewrite E. apply Qle_refl.
  - intros H%negb_true_iff. apply Qlt_le_weak, Qnot_le_lt.
    intros Hle%Qle_bool_iff. congruence.
Qed.

Lemma tuple_gt_false (y x : Q * str) : tuple_gt y x = false -> (y.1 <= x.1)%Q.
Proof.
  unfold tuple_gt. destruct (Qeq_bool y.1 x.1) eqn:E.
  - intros _. apply Qeq_bool_iff in E. rewrite E. apply Qle_refl.
  - intros H%negb_false_iff. by apply Qle_bool_iff.
Qed.

Lemma py_max_fold (x : Q * str) l :
  let m := foldl (fun best item => if tuple_gt item best then item else best) x l in
  (x.1 <= m.1)%Q /\ forall y, y ∈ l -> (y.1 <= m.1)%Q.
Proof.
  revert x. induction l as [|z l IH]; intros x; cbn [foldl].
  - split; [apply Qle_refl|]. by intros y ?%elem_of_nil.
  - destruct (tuple_gt z x) eqn:E.
    + destruct (IH z) as [H1 H2]. apply tuple_gt_true in E. split.
      * by eapply Qle_trans.
      * by intros y [->|Hy]%elem_of_cons; [|apply H2].
    + destruct (IH x) as [H1 H2]. apply tuple_gt_false in E. split; [done|].
      intros y [->|Hy]%elem_of_cons; [by eapply Qle_trans|by apply H2].
Qed.

Lemma py_max_maximal l m : py_max l = Some m -> forall y, y ∈ l -> (y.1 <= m.1)%Q.
Proof.
  destruct l as [|x l]; [done|]. cbn [py_max]. intros [= <-] y.
  destruct (py_max_fold x l) as [H1 H2].
  by intros [->|Hy]%elem_of_cons; [|apply H2].
Qed.

End Scores.

(** C2. When the normalised query is not a key of the map: if the
    similarity ratio of every key to it is below 0.4 the resolver returns
    the empty list; if some key reaches 0.4 it returns the list stored
    under a key that reaches 0.4 and whose ratio no other key exceeds. *)
Theorem resolve_fuzzy_fallback (nmap : list (str * list str)) (query : str) :
  Dict.get nmap (norm query) = None ->
  ((forall y, y ∈ Dict.keys nmap -> (Difflib.ratio y (norm query) < 2 # 5)%Q) ->
   resolve_targets nmap query = [])
  /\ ((exists y, y ∈ Dict.keys nmap /\ (2 # 5 <= Difflib.ratio y (norm query))%Q) ->
      exists x, x ∈ Dict.keys nmap
        /\ (2 # 5 <= Difflib.ratio x (norm query))%Q
        /\ (forall y, y ∈ Dict.keys nmap ->
              (Difflib.ratio y (norm query) <= Difflib.ratio x (norm query))%Q)
        /\ Dict.get nmap x = Some (resolve_targets nmap query)).
Proof.
  intros Hkey. unfold resolve_targets. rewrite Hkey.
  set (key := norm query).
  destruct (get_close_matches_cases key (Dict.keys nmap) (2 # 5)%Q)
    as [[-> Hnone]|(q & x & -> & Hmax)].
  - split; [done|]. intros (y & Hy & Hr). exfalso.
    assert (H : (Difflib.ratio y key, y) ∈ Difflib.scored key (Dict.keys nmap) (2 # 5)%Q)
      by by apply elem_of_scored_ratio.
    rewrite Hnone in H. by apply elem_of_nil in H.
  - pose proof (py_max_elem_of _ _ Hmax) as Hin.
    apply elem_of_scored in Hin as (Hx & Hq & _ & _ & Hr%Qle_bool_iff).
    cbn [fst snd] in Hx, Hq, Hr. subst q. split.
    + intros Hall. exfalso. apply (Qlt_not_le _ _ (Hall x Hx)), Hr.
    + intros _. exists x. split; [done|]. split; [done|]. split.
      * intros y Hy. destruct (Qlt_le_dec (Difflib.ratio y key) (2 # 5)) as [Hlt|Hle].
        -- apply Qlt_le_weak. by eapply Qlt_le_trans.
        -- apply (py_max_maximal _ _ Hmax (Difflib.ratio y key, y)).
           by apply elem_of_scored_ratio.
      * destruct (Dict.get nmap x) as [rs|] eqn:E; [done|].
        by apply get_None in E.
Qed.

Lemma resolve_fuzzy_fallback_witness :
  resolve_targets Sample.nmap (py "합정동") = [py "합정"; py "합정(2)"]
  /\ resolve_targets Sample.nmap (py "xyz") = [].
Proof.
  split.
  - assert (H : exists y, y ∈ Dict.keys Sample.nmap
                  /\ (2 # 5 <= Difflib.ratio y (norm (py "합정동")))%Q).
    { exists (py "합정"). split; [left|]. by vm_compute. }
    destruct (proj2 (resolve_fuzzy_fallback Sample.nmap (py "합정동") eq_refl) H)
      as (x & _ & _ & _ & E).
    vm_compute in E. by vm_compute.
  - apply (proj1 (resolve_fuzzy_fallback Sample.nmap (py "xyz") eq_refl)).
    intros y Hy. vm_compute in Hy.
    apply elem_of_cons in Hy as [->|Hy]; [by vm_compute|].
    apply elem_of_cons in Hy as [->|Hy]; [by vm_compute|].
    by apply elem_of_nil in Hy.
Defined.

(** * Further properties of the code *)

(** ** [norm] *)

Section NormFacts.

Lemma lstrip_strip s : lstrip (strip s) = strip s.
Proof.
  unfold strip. pose proof (lstrip_head s) as H.
  destruct (lstrip s) as [|c t]; [done|].
  rewrite (rstrip_cons c t H). by apply lstrip_fixed.
Qed.

Lemma norm_clean s : clean (norm s).
Proof.
  unfold norm. set (y := replace_empty YEOK (Re.sub_parens false s)).
  split; [|split; [|split]].
  - apply unmatched_strip, unmatched_replace; [done..|]. apply sub_parens_unmatched.
  - apply notin_strip, replace_empty_notin.
  - apply lstrip_strip.
  - apply rstrip_idem.
Qed.

Lemma clean_norm s : clean s -> norm s = s.
Proof.
  intros (Hu & Hy & Hl & Hr). unfold norm, strip.
  by rewrite (unmatched_sub_id s Hu), (replace_empty_id YEOK s Hy), Hl, Hr.
Qed.

Lemma sub_parens_sublist inside s : Re.sub_parens inside s `sublist_of` s.
Proof.
  revert inside. induction s as [|c t IH]; intros inside; [done|]. simpl.
  destruct inside; [by apply sublist_cons|].
  destruct (_ && _); [by apply sublist_cons|by apply sublist_skip].
Qed.

Lemma strip_sublist_of s : strip s `sublist_of` s.
Proof.
  destruct (strip_sublist s) as (w1 & w2 & H). rewrite H at 2.
  apply sublist_inserts_l, sublist_inserts_r. done.
Qed.

Lemma close_replace c t :
  c <> LF -> c <> RPAREN ->
  Re.dot_lazy_close (replace_empty c t) = Re.dot_lazy_close t.
Proof.
  intros Hlf Hrp. unfold replace_empty.
  induction t as [|d t IH]; [done|]. simpl.
  destruct (N.eqb_spec d c) as [->|Hd]; simpl.
  - destruct (N.eqb_spec c RPAREN); [done|]. by destruct (N.eqb_spec c LF).
  - destruct (d =? RPAREN); [done|]. by destruct (d =? LF).
Qed.

Lemma sub_parens_replace c inside s :
  c <> LF -> c <> RPAREN -> c <> LPAREN ->
  Re.sub_parens inside (replace_empty c s) = replace_empty c (Re.sub_parens inside s).
Proof.
  intros Hlf Hrp Hlp. revert inside. induction s as [|d t IH]; intros inside; [done|].
  unfold replace_empty in *. cbn [List.filter Re.sub_parens].
  destruct (N.eqb_spec d c) as [->|Hd]; cbn [negb].
  - destruct inside.
    + destruct (N.eqb_spec c RPAREN); [done|]. apply IH.
    + destruct (N.eqb_spec c LPAREN); [done|]. cbn [andb List.filter].
      rewrite N.eqb_refl. cbn [negb]. apply IH.
  - cbn [Re.sub_parens]. destruct inside; [apply IH|].
    fold (replace_empty c t). rewrite (close_replace c t Hlf Hrp).
    destruct (_ && _); [apply IH|]. cbn [List.filter].
    destruct (N.eqb_spec d c); [done|]. cbn [negb]. f_equal. apply IH.
Qed.

Lemma replace_empty_idem c s : replace_empty c (replace_empty c s) = replace_empty c s.
Proof. apply replace_empty_id, replace_empty_notin. Qed.

Lemma norm_replace s : norm (replace_empty YEOK s) = norm s.
Proof.
  unfold norm. by rewrite sub_parens_replace, replace_empty_idem.
Qed.

End NormFacts.

(** X1. The strings that [norm] leaves alone are the clean ones, and what
    [norm] returns is always clean. *)
Theorem norm_fixed_iff_clean (s : str) :
  clean (norm s) /\ (norm s = s <-> clean s).
Proof.
  split; [apply norm_clean|]. split.
  - intros H. rewrite <- H. apply norm_clean.
  - apply clean_norm.
Qed.

(** X2. [norm] only deletes: its result is a subsequence of the input, so
    it is never longer and holds no character that the input lacks. *)
Theorem norm_sublist (s : str) :
  norm s `sublist_of` s /\ (length (norm s) <= length s)%nat
  /\ forall c, c ∈ norm s -> c ∈ s.
Proof.
  assert (H : norm s `sublist_of` s).
  { unfold norm. etrans; [apply strip_sublist_of|].
    etrans; [apply filter_sublist|]. apply sub_parens_sublist. }
  split; [done|]. split; [by apply sublist_length|].
  intros c. by apply sublist_subseteq.
Qed.

(** X3. U+C5ED is ignored wherever it stands, not only at the end: two
    names that differ by one occurrence of it have the same normal
    form. *)
Theorem norm_ignores_yeok (s1 s2 : str) :
  norm (s1 ++ YEOK :: s2) = norm (s1 ++ s2).
Proof.
  rewrite <- (norm_replace (s1 ++ YEOK :: s2)), <- (norm_replace (s1 ++ s2)).
  f_equal. unfold replace_empty. rewrite !List.filter_app. cbn [List.filter].
  by rewrite N.eqb_refl.
Qed.

Section OuterSpace.

Implicit Types (w s t : str).

Let spaces w : Prop := Forall (fun c => isspace c = true) w.

Lemma spaces_notin w c : isspace c = false -> spaces w -> c ∉ w.
Proof.
  intros Hc Hw Hin. unfold spaces in Hw. rewrite Forall_forall in Hw.
  specialize (Hw c Hin). congruence.
Qed.

Lemma lstrip_spaces_app w s : spaces w -> lstrip (w ++ s) = lstrip s.
Proof.
  induction 1 as [|c w Hc Hw IH]; [done|]. simpl. by rewrite Hc.
Qed.

Lemma lstrip_spaces w : spaces w -> lstrip w = [].
Proof. intros Hw. rewrite <- (app_nil_r w). by rewrite lstrip_spaces_app. Qed.

Lemma rstrip_app_spaces s w : spaces w -> rstrip (s ++ w) = rstrip s.
Proof.
  intros Hw. unfold rstrip. rewrite rev_app_distr, lstrip_spaces_app; [done|].
  unfold spaces. rewrite Forall_forall. intros c Hc.
  apply list_elem_of_In, in_rev, list_elem_of_In in Hc.
  unfold spaces in Hw. rewrite Forall_forall in Hw. by apply Hw.
Qed.

Lemma lstrip_app s w :
  lstrip (s ++ w) = match lstrip s with [] => lstrip w | _ => lstrip s ++ w end.
Proof.
  induction s as [|c s IH]; simpl; [by destruct (lstrip w)|].
  by destruct (isspace c).
Qed.

Lemma strip_outer_spaces w1 s w2 :
  spaces w1 -> spaces w2 -> strip (w1 ++ s ++ w2) = strip s.
Proof.
  intros H1 H2. unfold strip. rewrite lstrip_spaces_app, lstrip_app by done.
  destruct (lstrip s) as [|c t] eqn:E.
  - by rewrite lstrip_spaces.
  - by rewrite rstrip_app_spaces.
Qed.

Lemma close_app_no_rparen t w :
  RPAREN ∉ w -> Re.dot_lazy_close (t ++ w) = Re.dot_lazy_close t.
Proof.
  intros Hw. induction t as [|c t IH]; simpl.
  - induction w as [|d w IHw]; [done|]. simpl.
    apply not_elem_of_cons in Hw as [Hd Hw].
    destruct (N.eqb_spec d RPAREN); [done|]. destruct (d =? LF); [done|]. by apply IHw.
  - destruct (c =? RPAREN); [done|]. by destruct (c =? LF).
Qed.

Lemma sub_parens_no_lparen w : LPAREN ∉ w -> Re.sub_parens false w = w.
Proof.
  induction w as [|d w IH]; [done|]. intros [Hd Hw]%not_elem_of_cons. simpl.
  destruct (N.eqb_spec d LPAREN); [done|]. simpl. by rewrite IH.
Qed.

Lemma sub_parens_app_l w t :
  LPAREN ∉ w -> Re.sub_parens false (w ++ t) = w ++ Re.sub_parens false t.
Proof.
  induction w as [|d w IH]; [done|]. intros [Hd Hw]%not_elem_of_cons. simpl.
  destruct (N.eqb_spec d LPAREN); [done|]. simpl. by rewrite IH.
Qed.

Lemma sub_parens_app_r t w :
  LPAREN ∉ w -> RPAREN ∉ w ->
  Re.sub_parens false (t ++ w) = Re.sub_parens false t ++ w
  /\ (Re.dot_lazy_close t = true ->
      Re.sub_parens true (t ++ w) = Re.sub_parens true t ++ w).
Proof.
  intros Hl Hr. induction t as [|c t [IH1 IH2]].
  - split; [by apply sub_parens_no_lparen|done].
  - split.
    + cbn [app Re.sub_parens]. rewrite close_app_no_rparen by done.
      destruct (N.eqb_spec c LPAREN) as [->|Hc]; cbn [andb]; [|by rewrite IH1].
      destruct (Re.dot_lazy_close t) eqn:E; [by apply IH2|by rewrite IH1].
    + cbn [app Re.sub_parens Re.dot_lazy_close].
      destruct (N.eqb_spec c RPAREN) as [->|Hc]; cbn [negb]; [done|].
      destruct (c =? LF); [done|]. apply IH2.
Qed.

Lemma norm_outer_spaces w1 s w2 :
  spaces w1 -> spaces w2 -> norm (w1 ++ s ++ w2) = norm s.
Proof.
  intros H1 H2. unfold norm.
  rewrite sub_parens_app_l by (by apply spaces_notin).
  rewrite (proj1 (sub_parens_app_r s w2 ltac:(by apply spaces_notin)
                    ltac:(by apply spaces_notin))).
  unfold replace_empty. rewrite !List.filter_app. fold (replace_empty YEOK w1).
  fold (replace_empty YEOK w2).
  rewrite (replace_empty_id YEOK w1), (replace_empty_id YEOK w2)
    by (by apply spaces_notin).
  by apply strip_outer_spaces.
Qed.

End OuterSpace.

(** X4. White space around a name or a query does not count: adding
    white-space characters (line feeds included) in front and behind
    leaves the normal form, and with it the resolver's answer,
    unchanged. *)
Theorem norm_ignores_outer_space (w1 s w2 : str) :
  Forall (fun c => isspace c = true) w1 ->
  Forall (fun c => isspace c = true) w2 ->
  norm (w1 ++ s ++ w2) = norm s
  /\ forall nmap, resolve_targets nmap (w1 ++ s ++ w2) = resolve_targets nmap s.
Proof.
  intros H1 H2. pose proof (norm_outer_spaces w1 s w2 H1 H2) as H.
  split; [done|]. intros nmap. unfold resolve_targets. by rewrite H.
Qed.

Lemma norm_ignores_outer_space_witness :
  norm ([32; 9] ++ py "강남(2호선)" ++ [10]) = norm (py "강남(2호선)").
Proof.
  refine (proj1 (norm_ignores_outer_space [32; 9] (py "강남(2호선)") [10] _ _));
    repeat constructor.
Defined.

(** ** [build_map] and the resolver together *)

Section MapContent.

Implicit Types (d : list (str * list str)) (k r : str) (order : list str).

Lemma setdefault_append_get_eq d k r :
  Dict.get (Dict.setdefault_append d k r) k = Some (default [] (Dict.get d k) ++ [r]).
Proof.
  induction d as [|[k' v'] d IH]; cbn [Dict.setdefault_append Dict.get].
  - by rewrite decide_True.
  - destruct (decide (k' = k)) as [->|Hne]; cbn [Dict.get].
    + by rewrite decide_True.
    + by rewrite decide_False.
Qed.

Lemma setdefault_append_get_ne d k r k' :
  k <> k' -> Dict.get (Dict.setdefault_append d k r) k' = Dict.get d k'.
Proof.
  intros Hne. induction d as [|[k0 v0] d IH]; cbn [Dict.setdefault_append Dict.get].
  - by rewrite decide_False.
  - destruct (decide (k0 = k)) as [->|Hne0]; cbn [Dict.get].
    + by rewrite !decide_False.
    + destruct (decide (k0 = k')); [done|apply IH].
Qed.

Let same_norm k (l : list str) : list str :=
  List.filter (fun r => bool_decide (norm r = k)) l.

Lemma n2r_from_get order k :
  Dict.get (n2r_from order) k
  = match same_norm k order with
    | [] => None
    | l => Some l
    end.
Proof.
  induction order as [|r order IH] using rev_ind; [done|].
  rewrite n2r_from_snoc. unfold same_norm in *. rewrite List.filter_app.
  cbn [List.filter]. destruct (decide (norm r = k)) as [<-|Hne].
  - rewrite setdefault_append_get_eq, IH, bool_decide_eq_true_2 by done.
    by destruct (List.filter _ order).
  - rewrite setdefault_append_get_ne, IH, bool_decide_eq_false_2 by done.
    by rewrite app_nil_r.
Qed.

Lemma elem_of_same_norm k l r : r ∈ same_norm k l <-> r ∈ l /\ norm r = k.
Proof.
  unfold same_norm. rewrite list_elem_of_In, filter_In, bool_decide_eq_true.
  by rewrite <- list_elem_of_In.
Qed.

Lemma n2r_from_key order k :
  k ∈ Dict.keys (n2r_from order) <-> exists r, r ∈ order /\ norm r = k.
Proof.
  split.
  - intros Hk. destruct (Dict.get (n2r_from order) k) as [rs|] eqn:E;
      [|by apply get_None in E].
    rewrite n2r_from_get in E.
    destruct (same_norm k order) as [|r l] eqn:El; [done|].
    exists r. apply (elem_of_same_norm k order r). rewrite El. left.
  - intros (r & Hr & Hk). destruct (Dict.get (n2r_from order) k) as [rs|] eqn:E.
    + apply get_elem_of in E. apply list_elem_of_fmap. by exists (k, rs).
    + rewrite n2r_from_get in E.
      assert (Hin : r ∈ same_norm k order) by by apply elem_of_same_norm.
      destruct (same_norm k order); [by apply elem_of_nil in Hin|done].
Qed.

Lemma resolve_exact order query :
  (exists r, r ∈ order /\ norm r = norm query) ->
  resolve_targets (n2r_from order) query = same_norm (norm query) order.
Proof.
  intros (r & Hr & Hk). unfold resolve_targets. rewrite n2r_from_get.
  assert (Hin : r ∈ same_norm (norm query) order) by by apply elem_of_same_norm.
  destruct (same_norm (norm query) order); [by apply elem_of_nil in Hin|done].
Qed.

End MapContent.

(** X5. The list that [build_map] stores under a key holds exactly the raw
    names with that normal form, in the order in which the set [raw] is
    iterated; a string that is the normal form of no raw name is no
    key. *)
Theorem n2r_from_lists (order : list str) (k : str) :
  Dict.get (n2r_from order) k
  = match List.filter (fun r => bool_decide (norm r = k)) order with
    | [] => None
    | l => Some l
    end.
Proof. apply n2r_from_get. Qed.

(** X6. The keys of the map are the normal forms of the drawn raw names,
    and every key is its own normal form. *)
Theorem build_map_keys (dfs : list DataFrame) (order : list str) (k : str) :
  order ≡ₚ elements (raw_names dfs) ->
  (k ∈ Dict.keys (n2r_from order) <-> exists r, drawn dfs r /\ norm r = k)
  /\ (k ∈ Dict.keys (n2r_from order) -> norm k = k).
Proof.
  intros Hperm.
  assert (H : k ∈ Dict.keys (n2r_from order) <-> exists r, drawn dfs r /\ norm r = k).
  { rewrite n2r_from_key. split; intros (r & Hr & Hk); exists r; (split; [|done]).
    - apply elem_of_raw_names, elem_of_elements. by rewrite <- Hperm.
    - rewrite Hperm. by apply elem_of_elements, elem_of_raw_names. }
  split; [done|]. intros (r & _ & <-)%H. apply clean_norm, norm_clean.
Qed.

Lemma build_map_keys_witness : py "합정" ∈ Dict.keys (build_map [Sample.status]).
Proof.
  refine (proj2 (proj1 (build_map_keys [Sample.status]
                          (elements (raw_names [Sample.status])) (py "합정") _)) _).
  - reflexivity.
  - exists (py "합정(2)"). split; [|by vm_compute].
    exists Sample.status, (py "STN_NM"), {[ py "STN_NM" := Some (py "합정(2)") ]}.
    split; [left|]. split; [left|]. split; [left|]. by vm_compute.
Defined.

(** X7. The set [raw] depends only on which names the name columns hold:
    the order of the tables and of their rows, repeated names, other
    columns and empty cells make no difference. *)
Theorem raw_names_extensional (dfs dfs' : list DataFrame) :
  (forall r, drawn dfs r <-> drawn dfs' r) -> raw_names dfs = raw_names dfs'.
Proof.
  intros H. apply set_eq. intros r. by rewrite !elem_of_raw_names.
Qed.

Lemma raw_names_extensional_witness :
  raw_names [Sample.status; Sample.conv; Sample.status]
  = raw_names [Sample.conv; Sample.status].
Proof.
  apply raw_names_extensional. intros r. split; intros (df & col & row & Hdf & H).
  - exists df, col, row. split; [|done].
    repeat (apply elem_of_cons in Hdf as [->|Hdf];
            [first [left | right; left | right; right; left]|]).
    by apply elem_of_nil in Hdf.
  - exists df, col, row. split; [|done].
    repeat (apply elem_of_cons in Hdf as [->|Hdf];
            [first [left | right; left | right; right; left]|]).
    by apply elem_of_nil in Hdf.
Defined.

(** X8. Looking up what was filed: a query that is itself one of the drawn
    raw names is answered with a list that contains it, and, whenever the
    normal form of a query is that of some raw name, the answer consists
    of exactly the raw names with that normal form. *)
Theorem resolve_raw_name (dfs : list DataFrame) (order : list str) (query : str) :
  order ≡ₚ elements (raw_names dfs) ->
  (drawn dfs query -> query ∈ resolve_targets (n2r_from order) query)
  /\ ((exists r, drawn dfs r /\ norm r = norm query) ->
      forall x, x ∈ resolve_targets (n2r_from order) query
                <-> drawn dfs x /\ norm x = norm query).
Proof.
  intros Hperm.
  assert (Hd : forall r, drawn dfs r <-> r ∈ order).
  { intros r. by rewrite Hperm, elem_of_elements, elem_of_raw_names. }
  assert (He : (exists r, drawn dfs r /\ norm r = norm query) ->
               forall x, x ∈ resolve_targets (n2r_from order) query
                         <-> drawn dfs x /\ norm x = norm query).
  { intros (r & Hr & Hk) x. rewrite resolve_exact by (exists r; by rewrite <- Hd).
    by rewrite elem_of_same_norm, Hd. }
  split; [|done]. intros Hq. apply He; [by exists query|done].
Qed.

Lemma resolve_raw_name_witness :
  py "합정(2)" ∈ resolve_targets (build_map [Sample.status]) (py "합정(2)").
Proof.
  refine (proj1 (resolve_raw_name [Sample.status] (elements (raw_names [Sample.status]))
                   (py "합정(2)") _) _).
  - reflexivity.
  - exists Sample.status, (py "STN_NM"), {[ py "STN_NM" := Some (py "합정(2)") ]}.
    split; [left|]. split; [left|]. split; [left|]. by vm_compute.
Defined.

(** X9. From the tables to a section: when the normal form of the query is
    that of some raw name, the rows that a table shows are exactly its
    rows whose station name has the normal form of the query. *)
Theorem select_by_norm (dfs : list DataFrame) (order : list str)
    (df : DataFrame) (col query : str) :
  order ≡ₚ elements (raw_names dfs) ->
  df ∈ dfs -> col ∈ name_columns ->
  (exists r, drawn dfs r /\ norm r = norm query) ->
  select df col (resolve_targets (n2r_from order) query)
  = List.filter (fun row : record =>
      match cell row col with
      | VStr r => bool_decide (norm r = norm query)
      | _ => false
      end) df.
Proof.
  intros Hperm Hdf Hcol (r0 & Hr0 & Hk).
  assert (Hd : forall r, drawn dfs r <-> r ∈ order).
  { intros r. by rewrite Hperm, elem_of_elements, elem_of_raw_names. }
  rewrite resolve_exact by (exists r0; by rewrite <- Hd).
  unfold select. apply filter_ext_in. intros row Hrow%list_elem_of_In.
  unfold isin, cell. destruct (row !! col) as [[r|]|] eqn:E; [|done..].
  apply bool_decide_ext. rewrite elem_of_same_norm, <- Hd.
  split; [by intros [_ ?]|]. intros Hn. split; [|done].
  by exists df, col, row.
Qed.

Lemma select_by_norm_witness :
  select Sample.status (py "STN_NM")
    (resolve_targets (build_map [Sample.status]) (py "합정역"))
  = Sample.status.
Proof.
  etrans.
  - refine (select_by_norm [Sample.status] (elements (raw_names [Sample.status]))
              Sample.status (py "STN_NM") (py "합정역") _ _ _ _).
    + reflexivity.
    + left.
    + left.
    + exists (py "합정"). split; [|by vm_compute].
      exists Sample.status, (py "STN_NM"), {[ py "STN_NM" := Some (py "합정") ]}.
      split; [left|]. split; [left|]. split; [right; left|]. by vm_compute.
  - by vm_compute.
Defined.

(** ** The closest match *)

Section TupleOrder.

Import Difflib.

Lemma str_gt_irrefl x : str_gt x x = false.
Proof.
  induction x as [|c x IH]; [done|]. simpl.
  by rewrite N.ltb_irrefl, N.eqb_refl, IH.
Qed.

Lemma str_gt_trans x y z : str_gt x y = true -> str_gt y z = true -> str_gt x z = true.
Proof.
  revert y z. induction x as [|c x IH]; intros [|d y] [|e z]; simpl; try done.
  intros [H1|[H1 H2]%andb_true_iff]%orb_true_iff [H3|[H3 H4]%andb_true_iff]%orb_true_iff;
    apply orb_true_iff;
    repeat match goal with
           | H : (_ <? _)%N = true |- _ => apply N.ltb_lt in H
           | H : (_ =? _)%N = true |- _ => apply N.eqb_eq in H
           end.
  - left. apply N.ltb_lt. lia.
  - left. apply N.ltb_lt. lia.
  - left. apply N.ltb_lt. lia.
  - right. apply andb_true_iff. split; [apply N.eqb_eq; lia|]. by apply (IH y z).
Qed.

Lemma str_gt_total x y : str_gt x y = false -> str_gt y x = false -> x = y.
Proof.
  revert y. induction x as [|c x IH]; intros [|d y]; simpl; try done.
  intros [H1 H2]%orb_false_iff [H3 H4]%orb_false_iff.
  apply N.ltb_ge in H1, H3. assert (c = d) as -> by lia.
  rewrite N.eqb_refl in H2, H4. f_equal. by apply IH.
Qed.

Lemma tuple_gt_true_iff (x y : Q * str) :
  tuple_gt x y = true <-> (y.1 < x.1)%Q \/ (x.1 == y.1 /\ str_gt x.2 y.2 = true)%Q.
Proof.
  unfold tuple_gt. destruct (Qeq_bool x.1 y.1) eqn:E.
  - apply Qeq_bool_iff in E. split; [by right|].
    intros [H|[_ H]]; [|done]. rewrite E in H. by apply Qlt_irrefl in H.
  - assert (~ (x.1 == y.1)%Q) as Hne by (intros H%Qeq_bool_iff; congruence).
    rewrite negb_true_iff. split.
    + intros H. left. apply Qnot_le_lt. intros Hle%Qle_bool_iff. congruence.
    + intros [H|[H _]]; [|done]. apply not_true_is_false.
      intros Hle%Qle_bool_iff. by apply (Qlt_not_le _ _ H).
Qed.

Lemma tuple_gt_false_iff (x y : Q * str) :
  tuple_gt x y = false <-> (x.1 < y.1)%Q \/ (x.1 == y.1 /\ str_gt x.2 y.2 = false)%Q.
Proof.
  unfold tuple_gt. destruct (Qeq_bool x.1 y.1) eqn:E.
  - apply Qeq_bool_iff in E. split; [by right|].
    intros [H|[_ H]]; [|done]. rewrite E in H. by apply Qlt_irrefl in H.
  - assert (~ (x.1 == y.1)%Q) as Hne by (intros H%Qeq_bool_iff; congruence).
    rewrite negb_false_iff, Qle_bool_iff. split.
    + intros H. left. apply Qle_lt_or_eq in H as [H|H]; done.
    + intros [H|[H _]]; [by apply Qlt_le_weak|done].
Qed.

Lemma tuple_gt_below (y best z : Q * str) :
  tuple_gt y best = false -> tuple_gt z best = true -> tuple_gt y z = false.
Proof.
  rewrite !tuple_gt_false_iff, tuple_gt_true_iff.
  intros [H1|[H1 H2]] [H3|[H3 H4]].
  - left. by eapply Qlt_trans.
  - left. by rewrite H3.
  - left. by rewrite H1.
  - right. split; [by rewrite H1, H3|].
    destruct (str_gt y.2 z.2) eqn:E; [|done].
    by rewrite (str_gt_trans _ _ _ E H4) in H2.
Qed.

Lemma str_gt_false x y : str_gt x y = false -> x = y \/ str_gt y x = true.
Proof.
  intros H. destruct (str_gt y x) eqn:E; [by right|]. left. by apply str_gt_total.
Qed.

Lemma tuple_le_trans (x y z : Q * str) :
  tuple_gt x y = false -> tuple_gt y z = false -> tuple_gt x z = false.
Proof.
  rewrite !tuple_gt_false_iff. intros [H1|[H1 H2]] [H3|[H3 H4]].
  - left. by eapply Qlt_trans.
  - left. by rewrite <- H3.
  - left. by rewrite H1.
  - right. split; [by rewrite H1|].
    destruct (str_gt x.2 z.2) eqn:E; [|done].
    apply str_gt_false in H4 as [H4|H4].
    + by rewrite <- H4, H2 in E.
    + by rewrite (str_gt_trans _ _ _ E H4) in H2.
Qed.

Lemma tuple_gt_irrefl (x : Q * str) : tuple_gt x x = false.
Proof.
  apply tuple_gt_false_iff. right. split; [reflexivity|apply str_gt_irrefl].
Qed.

Lemma tuple_gt_same (x y : Q * str) :
  tuple_gt x y = false -> tuple_gt y x = false -> x.2 = y.2.
Proof.
  rewrite !tuple_gt_false_iff. intros [H1|[H1 H2]] [H3|[H3 H4]].
  - exfalso. apply (Qlt_irrefl x.1). by eapply Qlt_trans.
  - rewrite H3 in H1. by apply Qlt_irrefl in H1.
  - rewrite H1 in H3. by apply Qlt_irrefl in H3.
  - by apply str_gt_total.
Qed.

Lemma py_max_fold_top (x : Q * str) l :
  let m := foldl (fun best item => if tuple_gt item best then item else best) x l in
  tuple_gt x m = false /\ forall y, y ∈ l -> tuple_gt y m = false.
Proof.
  revert x. induction l as [|z l IH]; intros x; cbn [foldl].
  - split; [apply tuple_gt_irrefl|]. by intros y ?%elem_of_nil.
  - destruct (tuple_gt z x) eqn:E.
    + destruct (IH z) as [H1 H2]. split.
      * destruct (tuple_gt x _) eqn:E'; [|done].
        pose proof (tuple_gt_below _ _ _ H1 E') as H. by rewrite E in H.
      * by intros y [->|Hy]%elem_of_cons; [|apply H2].
    + destruct (IH x) as [H1 H2]. split; [done|].
      intros y [->|Hy]%elem_of_cons; [|by apply H2].
      by apply (tuple_le_trans _ x).
Qed.

Lemma py_max_top l m : py_max l = Some m -> forall y, y ∈ l -> tuple_gt y m = false.
Proof.
  destruct l as [|x l]; [done|]. cbn [py_max]. intros [= <-] y.
  destruct (py_max_fold_top x l) as [H1 H2].
  by intros [->|Hy]%elem_of_cons; [|apply H2].
Qed.

Lemma py_max_same_elements l l' m m' :
  (forall e, e ∈ l <-> e ∈ l') ->
  py_max l = Some m -> py_max l' = Some m' -> m.2 = m'.2.
Proof.
  intros Hl Hm Hm'. apply tuple_gt_same.
  - apply (py_max_top l' m' Hm'), Hl. by apply py_max_elem_of.
  - apply (py_max_top l m Hm), Hl. by apply py_max_elem_of.
Qed.

Lemma get_close_matches_same_elements word ps ps' cutoff :
  (forall x, x ∈ ps <-> x ∈ ps') ->
  get_close_matches word ps cutoff = get_close_matches word ps' cutoff.
Proof.
  intros Hps.
  assert (Hs : forall e, e ∈ scored word ps cutoff <-> e ∈ scored word ps' cutoff).
  { intros e. by rewrite !elem_of_scored, Hps. }
  unfold get_close_matches.
  destruct (py_max (scored word ps cutoff)) as [[q x]|] eqn:E,
           (py_max (scored word ps' cutoff)) as [[q' x']|] eqn:E'.
  - f_equal. apply (py_max_same_elements _ _ _ _ Hs E E').
  - apply py_max_None in E'. apply py_max_elem_of, Hs in E.
    rewrite E' in E. by apply elem_of_nil in E.
  - apply py_max_None in E. apply py_max_elem_of, Hs in E'.
    rewrite E in E'. by apply elem_of_nil in E'.
  - done.
Qed.

End TupleOrder.

Section Fuzzy.

Import Difflib.

Lemma calculate_ratio_cutoff (m len : nat) :
  len <> 0%nat -> (2 # 5 <= calculate_ratio m len)%Q -> (len <= 5 * m)%nat.
Proof.
  intros Hlen. unfold calculate_ratio. destruct len as [|n]; [done|].
  cbn [Nat.eqb]. unfold Qle, Qdiv, Qmult, Qinv, inject_Z. cbn [Qnum Qden].
  change (Z.of_nat (S n)) with (Z.pos (Pos.of_succ_nat n)). cbn [Qnum Qden].
  rewrite Pos.mul_1_l. intros H. pose proof (Zpos_P_of_succ_nat n). lia.
Qed.

Lemma resolve_fuzzy_hit (nmap : list (str * list str)) (query : str) :
  Dict.get nmap (norm query) = None ->
  resolve_targets nmap query <> [] ->
  exists x, x ∈ Dict.keys nmap
    /\ Dict.get nmap x = Some (resolve_targets nmap query)
    /\ get_close_matches (norm query) (Dict.keys nmap) (2 # 5)%Q = [x]
    /\ (2 # 5 <= ratio x (norm query))%Q.
Proof.
  intros Hkey. unfold resolve_targets. rewrite Hkey.
  destruct (get_close_matches_cases (norm query) (Dict.keys nmap) (2 # 5)%Q)
    as [[-> _]|(q & x & -> & Hmax)]; [done|].
  intros Hne. exists x.
  apply py_max_elem_of, elem_of_scored in Hmax as (Hx & _ & _ & _ & Hr%Qle_bool_iff).
  cbn [fst snd] in Hx, Hr. split; [done|]. split; [|done].
  destruct (Dict.get nmap x) as [rs|] eqn:E; [done|]. by apply get_None in E.
Qed.

End Fuzzy.

(** X10. The resolver never makes a name up: its answer is empty or one of
    the lists stored in the map, and with an empty map it is empty. *)
Theorem resolve_from_map (nmap : list (str * list str)) (query : str) :
  (resolve_targets nmap query = []
   \/ exists k, (k, resolve_targets nmap query) ∈ nmap)
  /\ resolve_targets [] query = [].
Proof.
  split; [|done].
  destruct (Dict.get nmap (norm query)) as [rs|] eqn:E.
  - right. exists (norm query). apply get_elem_of.
    unfold resolve_targets. by rewrite E.
  - destruct (decide (resolve_targets nmap query = [])) as [|Hne]; [by left|].
    destruct (resolve_fuzzy_hit nmap query E Hne) as (x & _ & Hx & _).
    right. exists x. by apply get_elem_of.
Qed.

(** X11. What a fuzzy match needs: when the answer comes from the closest
    match, the chosen key and the normalised query share, as multisets,
    at least a fifth of their characters taken together; so they have a
    character in common and neither is more than four times as long as
    the other. *)
Theorem fuzzy_match_window (nmap : list (str * list str)) (query : str) :
  Dict.get nmap (norm query) = None ->
  resolve_targets nmap query <> [] ->
  exists x, x ∈ Dict.keys nmap
    /\ Dict.get nmap x = Some (resolve_targets nmap query)
    /\ (length x + length (norm query) <= 5 * overlap x (norm query))%nat
    /\ (exists c, c ∈ x /\ c ∈ norm query)
    /\ (length x <= 4 * length (norm query))%nat
    /\ (length (norm query) <= 4 * length x)%nat.
Proof.
  intros Hkey Hne.
  destruct (resolve_fuzzy_hit nmap query Hkey Hne) as (x & Hx & Hget & _ & Hr).
  exists x. split; [done|]. split; [done|].
  set (key := norm query) in *.
  assert (Hlen : (length x + length key)%nat <> 0%nat).
  { intros H0. assert (x = []) as -> by (destruct x; [done|simpl in H0; lia]).
    assert (key = []) as Hk by (destruct key; [done|simpl in H0; lia]).
    rewrite Hk in Hkey. by apply get_None in Hkey. }
  apply (calculate_ratio_cutoff _ _ Hlen) in Hr.
  pose proof (matches_le_overlap x key) as Hm.
  pose proof (overlap_le_length x key) as Ho.
  assert (H5 : (length x + length key <= 5 * overlap x key)%nat) by lia.
  split; [done|]. split; [|lia].
  assert (Hpos : (0 < overlap x key)%nat) by lia. unfold overlap in Hpos.
  destruct (gmultiset_choose_or_empty
              (list_to_set_disj x ∩ list_to_set_disj key : gmultiset N))
    as [[c Hc]|Hemp].
  - exists c. apply gmultiset_elem_of_intersection in Hc as [H1 H2].
    by rewrite !elem_of_list_to_set_disj in H1, H2.
  - apply gmultiset_size_empty_iff in Hemp. lia.
Qed.

Lemma fuzzy_match_window_witness :
  exists x, x ∈ Dict.keys Sample.nmap
    /\ (length x <= 4 * length (norm (py "합정동")))%nat.
Proof.
  destruct (fuzzy_match_window Sample.nmap (py "합정동") eq_refl)
    as (x & Hx & _ & _ & _ & H & _); [by vm_compute|].
  by exists x.
Defined.

(** X12. A query that normalises to the empty string (a lone U+C5ED, a
    parenthesised note) finds nothing unless the map has the empty
    key. *)
Theorem resolve_empty_key (nmap : list (str * list str)) (query : str) :
  norm query = [] -> [] ∉ Dict.keys nmap -> resolve_targets nmap query = [].
Proof.
  intros Hq Hk. destruct (decide (resolve_targets nmap query = [])) as [|Hne]; [done|].
  assert (Hget : Dict.get nmap (norm query) = None) by (rewrite Hq; by apply get_None).
  destruct (resolve_fuzzy_hit nmap query Hget Hne) as (x & Hx & _ & _ & Hr).
  rewrite Hq in Hr. exfalso.
  assert (Hlen : (length x + length (@nil N))%nat <> 0%nat).
  { destruct x; [done|simpl; lia]. }
  apply (calculate_ratio_cutoff _ _ Hlen) in Hr.
  pose proof (matches_le_overlap x []) as Hm.
  pose proof (overlap_le_length x []) as Ho. simpl in *. lia.
Qed.

Lemma resolve_empty_key_witness : resolve_targets Sample.nmap (py "역(2호선)") = [].
Proof.
  apply resolve_empty_key; [by vm_compute|].
  intros H. vm_compute in H.
  repeat (apply elem_of_cons in H as [H|H]; [discriminate H|]).
  by apply elem_of_nil in H.
Defined.

(** X13. Ties go to the greater key: among the keys that reach the cutoff
    and have the same ratio as the key returned, every other one is
    smaller in code-point order. *)
Theorem closest_match_tie_break (word : str) (ps : list str) (cutoff : Q) (x y : str) :
  Difflib.get_close_matches word ps cutoff = [x] ->
  y ∈ ps ->
  (cutoff <= Difflib.ratio y word)%Q ->
  (Difflib.ratio y word <= Difflib.ratio x word)%Q
  /\ ((Difflib.ratio y word == Difflib.ratio x word)%Q ->
      y = x \/ Difflib.str_gt x y = true).
Proof.
  intros Hx Hy Hr.
  destruct (get_close_matches_cases word ps cutoff) as [[E _]|(q & x' & E & Hmax)];
    rewrite E in Hx; [done|]. injection Hx as ->.
  pose proof (py_max_elem_of _ _ Hmax) as Hin.
  apply elem_of_scored in Hin as (_ & Hq & _). cbn [fst snd] in Hq. subst q.
  assert (Hin : (Difflib.ratio y word, y) ∈ Difflib.scored word ps cutoff)
    by by apply elem_of_scored_ratio.
  pose proof (py_max_top _ _ Hmax _ Hin) as Htop.
  apply tuple_gt_false_iff in Htop as [Hlt|[Heq Hgt]]; cbn [fst snd] in *.
  - split; [by apply Qlt_le_weak|]. intros Heq. rewrite Heq in Hlt.
    by apply Qlt_irrefl in Hlt.
  - split; [rewrite Heq; apply Qle_refl|]. intros _.
    destruct (Difflib.str_gt x y) eqn:E'; [by right|].
    left. by apply str_gt_total.
Qed.

Lemma closest_match_tie_break_witness :
  (Difflib.ratio (py "ab") (py "a") <= Difflib.ratio (py "ac") (py "a"))%Q.
Proof.
  refine (proj1 (closest_match_tie_break (py "a") [py "ab"; py "ac"] (2 # 5)%Q
                   (py "ac") (py "ab") _ _ _)).
  - by vm_compute.
  - left.
  - by vm_compute.
Defined.

Section OrderIndependence.

Lemma filter_Permutation_bool {A} (f : A -> bool) (l l' : list A) :
  l ≡ₚ l' -> List.filter f l ≡ₚ List.filter f l'.
Proof.
  induction 1 as [|x l l' _ IH|x y l|l l' l'' _ IH1 _ IH2]; simpl.
  - done.
  - destruct (f x); [by constructor|done].
  - destruct (f x), (f y); try done. apply perm_swap.
  - by etrans.
Qed.

Lemma n2r_from_get_perm (order order' : list str) (k : str) :
  order ≡ₚ order' ->
  default [] (Dict.get (n2r_from order) k) ≡ₚ default [] (Dict.get (n2r_from order') k).
Proof.
  intros Hperm. rewrite !n2r_from_get.
  pose proof (filter_Permutation_bool (fun r => bool_decide (norm r = k)) _ _ Hperm) as H.
  destruct (List.filter _ order) as [|r l], (List.filter _ order') as [|r' l']; try done.
Qed.

Lemma n2r_from_get_None_perm (order order' : list str) (k : str) :
  order ≡ₚ order' ->
  Dict.get (n2r_from order) k = None -> Dict.get (n2r_from order') k = None.
Proof.
  intros Hperm. rewrite !n2r_from_get.
  pose proof (filter_Permutation_bool (fun r => bool_decide (norm r = k)) _ _ Hperm) as H.
  destruct (List.filter _ order) as [|r l]; [|done]. intros _.
  apply Permutation_nil in H. by rewrite H.
Qed.

End OrderIndependence.

(** X14. The answer does not hang on how Python happens to iterate the set
    [raw]: two iteration orders give the same resolved names, up to the
    order in which they are listed. *)
Theorem resolve_order_independent (order order' : list str) (query : str) :
  order ≡ₚ order' ->
  resolve_targets (n2r_from order) query ≡ₚ resolve_targets (n2r_from order') query.
Proof.
  intros Hperm. unfold resolve_targets.
  pose proof (n2r_from_get_perm order order' (norm query) Hperm) as Hget.
  destruct (Dict.get (n2r_from order) (norm query)) as [rs|] eqn:E.
  - destruct (Dict.get (n2r_from order') (norm query)) as [rs'|] eqn:E'; [done|].
    apply (n2r_from_get_None_perm order' order) in E'; [congruence|done].
  - rewrite (n2r_from_get_None_perm order order' _ Hperm E).
    rewrite (get_close_matches_same_elements (norm query) (Dict.keys (n2r_from order))
               (Dict.keys (n2r_from order'))).
    + destruct (Difflib.get_close_matches _ _ _) as [|x l]; [done|].
      by apply n2r_from_get_perm.
    + intros x. rewrite !n2r_from_key. by setoid_rewrite Hperm.
Qed.

Lemma resolve_order_independent_witness :
  resolve_targets (n2r_from [py "합정"; py "합정(2)"]) (py "합정역")
  ≡ₚ resolve_targets (n2r_from [py "합정(2)"; py "합정"]) (py "합정역").
Proof. apply resolve_order_independent. apply perm_swap. Defined.

(** ** [int] and [str] on integers *)

Section IntRoundTrip.

Import Int.









End IntRoundTrip.



(** ** The length column *)

Section Digits.

Import Int.













Lemma of_str_raises s e : of_str s = Raise e -> e = ValueError.
Proof.
  unfold of_str.
  match goal with |- context [let '(_, _) := ?x in _] => destruct x as [neg a] end.
  destruct (scan 0 PStart a) as [[n rest]|]; [|congruence].
  destruct (skip_spaces rest); congruence.
Qed.








End Digits.



(** ** [parse_xml] and [fetch_xml_full]: failures and bounds *)


Section FetchGeneral.

Local Open Scope Z_scope.

Variable get : Z -> Z -> result (list (str * xml)).
Variables (chunk total : Z).

Let range_of (i : nat) : Z * Z :=
  (2 + Z.of_nat i * chunk, Z.min (2 + Z.of_nat i * chunk + chunk - 1) total).

(** The pages add their ranges to the log, one by one. *)
Lemma fetch_fold_log (l : list nat) st log rows :
  foldl (fetch_page get chunk total) st ((fun i => 2 + Z.of_nat i * chunk) <$> l)
    = Ok (log, rows) ->
  exists log0 rows0, st = Ok (log0, rows0) /\ log = log0 ++ (range_of <$> l).
Proof.
  revert st log rows. induction l as [|i l IH]; intros st log rows.
  - cbn [fmap list_fmap foldl]. intros ->. exists log, rows. by rewrite app_nil_r.
  - rewrite fmap_cons. cbn [foldl]. intros H.
    destruct (IH _ _ _ H) as (log1 & rows1 & Hst & ->).
    destruct st as [[log0 rows0]|e]; [|done]. exists log0, rows0. split; [done|].
    unfold fetch_page in Hst. cbn [mbind result_bind] in Hst.
    destruct (get _ _) as [body|]; [|done]. cbn [mbind result_bind] in Hst.
    destruct (parse_xml body) as [[add t]|]; [|done]. cbn [mbind result_bind] in Hst.
    destruct (list_extend rows0 add); [|done].
    cbn [mbind result_bind mret result_ret] in Hst. injection Hst as <- _.
    by rewrite <- app_assoc.
Qed.

Variable resp : Z -> Z -> list xml.



End FetchGeneral.



(** What a returning [fetch_xml_full] asked for. *)
Lemma fetch_log_requested (get : Z -> Z -> result (list (str * xml)))
    (chunk : Z) (log : list (Z * Z)) (rows : xml) :
  (1 <= chunk)%Z ->
  fetch_xml_full get chunk = Ok (log, rows) ->
  exists body first total, get 1%Z 1%Z = Ok body
    /\ parse_xml body = Ok (first, total) /\ log = requested total chunk.
Proof.
  intros Hchunk H. unfold fetch_xml_full in H. cbn [mbind result_bind] in H.
  destruct (get 1%Z 1%Z) as [body|] eqn:Hget; [|done]. cbn [mbind result_bind] in H.
  destruct (parse_xml body) as [[first total]|] eqn:Hparse; [|done].
  cbn [mbind result_bind] in H. rewrite py_range_pages in H by done.
  cbn [mbind result_bind] in H.
  apply fetch_fold_log in H as (log0 & rows0 & [= <- <-] & ->).
  by exists body, first, total.
Qed.

Lemma requested_bounds (total chunk lo hi : Z) :
  (1 <= chunk)%Z -> (lo, hi) ∈ requested total chunk ->
  (1 <= lo <= hi /\ hi - lo < chunk)%Z.
Proof.
  intros Hchunk [i Hi]%list_elem_of_lookup.
  apply (requested_lookup total chunk) in Hi
    as [(_ & -> & ->)|(j & _ & Hj & -> & ->)]; [lia|].
  pose proof (page_start_le total chunk Hchunk j Hj) as Hle. cbv beta zeta in Hle.
  assert (0 <= Z.of_nat j * chunk)%Z by nia. lia.
Qed.

(** X20. The size of the requests: whenever [fetch_xml_full] returns, with
    a page size of at least one, the ranges it asked for are those of the
    total that the probe declared; every range starts at row 1 or later,
    holds at least one row number and at most [chunk] of them. *)
Theorem fetch_request_bounds (get : Z -> Z -> result (list (str * xml)))
    (chunk : Z) (log : list (Z * Z)) (rows : xml) :
  (1 <= chunk)%Z ->
  fetch_xml_full get chunk = Ok (log, rows) ->
  (exists body first total, get 1%Z 1%Z = Ok body
     /\ parse_xml body = Ok (first, total) /\ log = requested total chunk)
  /\ forall lo hi, (lo, hi) ∈ log -> (1 <= lo <= hi /\ hi - lo < chunk)%Z.
Proof.
  intros Hchunk H.
  destruct (fetch_log_requested get chunk log rows Hchunk H)
    as (body & first & total & Hget & Hparse & ->).
  split; [by exists body, first, total|].
  intros lo hi Hin. by apply (requested_bounds total chunk).
Qed.

Lemma fetch_request_bounds_witness : (1 <= 2 <= 3 /\ 3 - 2 < 2)%Z.
Proof.
  refine (proj2 (fetch_request_bounds Sample.get3 2 [(1, 1); (2, 3)]%Z
                   (XList Sample.db3) _ _) 2%Z 3%Z _).
  - done.
  - by vm_compute.
  - right. left.
Defined.



Section FetchAnswered.

Local Open Scope Z_scope.

Variable get : Z -> Z -> result (list (str * xml)).
Variables (chunk total : Z).

(** A loop that ends without an exception had every page answered and
    decoded. *)
Lemma fetch_fold_answered (starts : list Z) st log rows :
  foldl (fetch_page get chunk total) st starts = Ok (log, rows) ->
  exists log0 rows0, st = Ok (log0, rows0)
    /\ log = log0 ++ ((fun s => (s, Z.min (s + chunk - 1) total)) <$> starts)
    /\ forall s, s ∈ starts ->
       exists body add t, get s (Z.min (s + chunk - 1) total) = Ok body
         /\ parse_xml body = Ok (add, t).
Proof.
  revert st log rows. induction starts as [|s0 starts IH]; intros st log rows.
  - cbn [fmap list_fmap foldl]. intros ->. exists log, rows.
    rewrite app_nil_r. split; [done|]. split; [done|]. by intros s Hs%elem_of_nil.
  - rewrite fmap_cons. cbn [foldl]. intros H.
    destruct (IH _ _ _ H) as (log1 & rows1 & Hst & -> & Hall).
    destruct st as [[log0 rows0]|e]; [|done]. exists log0, rows0. split; [done|].
    unfold fetch_page in Hst. cbn [mbind result_bind] in Hst.
    destruct (get _ _) as [body|] eqn:Hget; [|done]. cbn [mbind result_bind] in Hst.
    destruct (parse_xml body) as [[add t]|] eqn:Hparse; [|done].
    cbn [mbind result_bind] in Hst.
    destruct (list_extend rows0 add); [|done].
    cbn [mbind result_bind mret result_ret] in Hst. injection Hst as <- _.
    split; [by rewrite <- app_assoc|].
    intros s [->|Hs]%elem_of_cons; [by exists body, add, t|by apply Hall].
Qed.

End FetchAnswered.

(** X22. No partial table: when [fetch_xml_full] returns, every request in
    its log was answered and its body decoded by [parse_xml]; a request
    that fails, or a body that does not decode, makes the whole call
    raise. *)
Theorem fetch_no_partial_table (get : Z -> Z -> result (list (str * xml)))
    (chunk : Z) (log : list (Z * Z)) (rows : xml) :
  fetch_xml_full get chunk = Ok (log, rows) ->
  forall s e, (s, e) ∈ log ->
    exists body add t, get s e = Ok body /\ parse_xml body = Ok (add, t).
Proof.
  intros H. unfold fetch_xml_full in H. cbn [mbind result_bind] in H.
  destruct (get 1%Z 1%Z) as [body|] eqn:Hget; [|done]. cbn [mbind result_bind] in H.
  destruct (parse_xml body) as [[first total]|] eqn:Hparse; [|done].
  cbn [mbind result_bind] in H.
  destruct (py_range 2 (total + 1) chunk) as [starts|]; [|done].
  cbn [mbind result_bind] in H.
  apply fetch_fold_answered in H as (log0 & rows0 & [= <- <-] & -> & Hall).
  intros s e [Hin|Hin]%elem_of_app.
  - apply list_elem_of_singleton in Hin as [= -> ->]. by exists body, first, total.
  - apply list_elem_of_fmap in Hin as (s' & [= -> ->] & Hs). by apply Hall.
Qed.

Lemma fetch_no_partial_table_witness :
  exists body add t, Sample.get3 2 3 = Ok body /\ parse_xml body = Ok (add, t).
Proof.
  refine (fetch_no_partial_table Sample.get3 2 [(1, 1); (2, 3)]%Z (XList Sample.db3)
            _ 2%Z 3%Z _).
  - by vm_compute.
  - right. left.
Defined.

(** ** The closures, status and length sections *)

Section SectionFacts.

Import Sections.

Lemma filter_nil_iff {A} (f : A -> bool) (l : list A) :
  List.filter f l = [] <-> forall x, x ∈ l -> f x = false.
Proof.
  induction l as [|x l IH]; cbn [List.filter].
  - split; [by intros _ x Hx%elem_of_nil|done].
  - destruct (f x) eqn:E.
    + split; [done|]. intros H. specialize (H x ltac:(left)). congruence.
    + rewrite IH. split.
      * intros H y [->|Hy]%elem_of_cons; [done|by apply H].
      * intros H y Hy. apply H. by right.
Qed.

Lemma elem_of_select (df : DataFrame) (col : str) (targets : list str) (r : record) :
  r ∈ select df col targets <-> r ∈ df /\ isin targets (cell r col) = true.
Proof. unfold select. by rewrite !list_elem_of_In, filter_In. Qed.

Lemma select_name_column (df : DataFrame) (col : str) (targets : list str) :
  select df col targets <> [] -> has_column df col = true.
Proof.
  destruct (select df col targets) as [|row rest] eqn:E; [done|].
  intros _. by apply (select_has_column df col targets row rest).
Qed.

Lemma project_Raise (df show : DataFrame) (cols : list str) (e : exn) :
  project df show cols = Raise e <->
  e = KeyError /\ exists c, c ∈ cols /\ has_column df c = false.
Proof.
  unfold project. destruct (forallb (has_column df) cols) eqn:E.
  - split; [done|]. intros (_ & c & Hc & Hm).
    rewrite forallb_forall in E. specialize (E c). rewrite <- list_elem_of_In in E.
    rewrite E in Hm; done.
  - split; [|by intros [-> _]]. intros [= <-]. split; [done|].
    apply not_true_iff_false in E. rewrite forallb_forall in E.
    destruct (Exists_dec (fun c => has_column df c = false) cols) as [Hex|Hn].
    + apply Exists_exists in Hex as (c & Hc & Hm). by exists c.
    + exfalso. apply E. intros c Hc%list_elem_of_In.
      destruct (has_column df c) eqn:Ec; [done|]. exfalso. apply Hn.
      apply Exists_exists. by exists c.
Qed.

Lemma project_Ok (df show : DataFrame) (cols : list str) t :
  project df show cols = Ok t ->
  t = (fun r : record => cell r <$> cols) <$> show
  /\ forall c, c ∈ cols -> has_column df c = true.
Proof.
  unfold project. destruct (forallb (has_column df) cols) eqn:E; [|done].
  intros [= <-]. split; [done|]. intros c Hc%list_elem_of_In.
  rewrite forallb_forall in E. by apply E.
Qed.

Lemma mapM_Ok {A B} (f : A -> result B) (l : list A) (ys : list B) :
  mapM f l = Ok ys <-> Forall2 (fun x y => f x = Ok y) l ys.
Proof.
  revert ys. induction l as [|x l IH]; intros ys; cbn [mapM].
  - split; [intros [= <-]; constructor|by intros ->%Forall2_nil_inv_l].
  - cbn [mbind result_bind]. split.
    + destruct (f x) as [y|] eqn:E; [|done]. cbn [mbind result_bind].
      destruct (mapM f l) as [k|]; [|done].
      cbn [mbind result_bind mret result_ret]. intros [= <-].
      constructor; [done|by apply IH].
    + intros (y & k & Hy & Hk & ->)%Forall2_cons_inv_l. rewrite Hy.
      cbn [mbind result_bind]. apply IH in Hk. by rewrite Hk.
Qed.

Lemma mapM_Raise {A B} (f : A -> result B) (l : list A) (e : exn) :
  mapM f l = Raise e -> exists x, x ∈ l /\ f x = Raise e.
Proof.
  induction l as [|x l IH]; cbn [mapM]; [done|]. cbn [mbind result_bind].
  destruct (f x) as [y|e'] eqn:E; cbn [mbind result_bind].
  - destruct (mapM f l) as [k|e']; [done|]. cbn [mbind result_bind].
    intros [= ->]. destruct IH as (x' & Hx' & Hr); [done|].
    exists x'. split; [by right|done].
  - intros [= ->]. exists x. split; [left|done].
Qed.

Lemma mapM_some_Raise {A B} (f : A -> result B) (l : list A) (x : A) (e : exn) :
  x ∈ l -> f x = Raise e -> exists e', mapM f l = Raise e'.
Proof.
  intros Hx Hr. destruct (mapM f l) as [ys|e'] eqn:E; [|by exists e'].
  apply mapM_Ok in E. apply list_elem_of_lookup in Hx as [i Hi].
  destruct (Forall2_lookup_l _ _ _ _ _ E Hi) as (y & _ & Hy). congruence.
Qed.

Lemma length_text_ValueError (v : value) (e : exn) :
  Presenter.length_text v = Raise e -> e = ValueError.
Proof.
  unfold Presenter.length_text. destruct v as [s| |]; cbn [py_str int_of_value].
  - destruct (isdigit s); [|done].
    destruct (Int.of_str s) eqn:E; [done|]. cbn. intros [= <-].
    by apply (of_str_raises s).
  - replace (isdigit (py "None")) with false by (by vm_compute).
    intros H. cbv [mret result_ret] in H. discriminate H.
  - replace (isdigit (py "nan")) with false by (by vm_compute).
    intros H. cbv [mret result_ret] in H. discriminate H.
Qed.

Lemma out_of_service_nil (show : DataFrame) :
  out_of_service show = [] <->
  forall r : record, r ∈ show -> r !! py "USE_YN" = Some (Some (py "사용가능")).
Proof.
  unfold out_of_service. rewrite filter_nil_iff. apply forall_proper; intros r.
  apply forall_proper; intros _. rewrite negb_false_iff, bool_decide_eq_true.
  unfold cell. destruct (r !! py "USE_YN") as [[s|]|]; split; congruence.
Qed.

End SectionFacts.

(** X23. The all-clear of the status section: once a row of the station is
    selected, the section reports that every facility works exactly when
    every row of the station carries "사용가능" in [USE_YN]; a row whose
    flag is empty or absent counts as out of service. *)
Theorem status_all_clear (df : DataFrame) (targets : list str) :
  select df (py "STN_NM") targets <> [] ->
  (Sections.status df targets = Ok [Success (py "🟢 모든 시설 정상 작동")]
   <-> forall r : record, r ∈ df -> isin targets (cell r (py "STN_NM")) = true ->
         r !! py "USE_YN" = Some (Some (py "사용가능"))).
Proof.
  intros Hsel. unfold Sections.status. rewrite (select_name_column _ _ _ Hsel).
  destruct (select df (py "STN_NM") targets) as [|row rest] eqn:Esel; [done|].
  assert (Hall : (forall r : record, r ∈ row :: rest ->
                    r !! py "USE_YN" = Some (Some (py "사용가능")))
                 <-> forall r : record, r ∈ df ->
                       isin targets (cell r (py "STN_NM")) = true ->
                       r !! py "USE_YN" = Some (Some (py "사용가능"))).
  { rewrite <- Esel. split.
    - intros H r Hr Hin. apply H. by apply elem_of_select.
    - intros H r [Hr Hin]%elem_of_select. by apply H. }
  rewrite <- Hall, <- out_of_service_nil.
  destruct (has_column df (py "USE_YN")) eqn:Euse.
  - destruct (Sections.out_of_service (row :: rest)) as [|b bad]; [done|].
    split; [|done]. destruct (Sections.project df (b :: bad) _); done.
  - split; [done|]. intros Hnil. exfalso.
    pose proof (proj1 (out_of_service_nil _) Hnil) as Hall'. clear Hnil.
    rename Hall' into Hnil.
    assert (Hrow : row ∈ df) by (apply (elem_of_select df (py "STN_NM") targets);
                                 rewrite Esel; left).
    rewrite (has_column_of_row df _ row Hrow) in Euse; [done|].
    rewrite (Hnil row ltac:(left)). by eexists.
Qed.

Lemma status_all_clear_witness :
  Sections.status Sample.faci [py "합정"] = Ok [Success (py "🟢 모든 시설 정상 작동")].
Proof.
  apply (status_all_clear Sample.faci [py "합정"]); [by vm_compute|].
  intros r Hr Hin. unfold Sample.faci in Hr.
  apply elem_of_cons in Hr as [->|Hr]; [by vm_compute|].
  apply elem_of_cons in Hr as [->|Hr]; [by vm_compute in Hin|].
  by apply elem_of_nil in Hr.
Defined.

(** X24. The closures section raises exactly when a row of the station is
    selected and one of the four columns it displays is not in the table,
    and then with [KeyError]: the test before the selection guards the
    name column only. *)
Theorem closures_raises_iff (df : DataFrame) (targets : list str) (e : exn) :
  Sections.closures df targets = Raise e <->
  e = KeyError
  /\ select df (py "SBWY_STNS_NM") targets <> []
  /\ exists c, c ∈ Sections.closure_columns /\ has_column df c = false.
Proof.
  unfold Sections.closures.
  destruct (select df (py "SBWY_STNS_NM") targets) as [|row rest] eqn:Esel.
  - destruct (has_column df _); split; try done; by intros (_ & ? & _).
  - rewrite (select_has_column df _ targets row rest Esel).
    pose proof (project_Raise df (row :: rest) Sections.closure_columns e) as HR.
    destruct (Sections.project df (row :: rest) Sections.closure_columns) as [t|e'].
    + split; [done|]. intros (He & _ & Hc). discriminate (proj2 HR (conj He Hc)).
    + cbn [mbind result_bind]. split.
      * intros [= ->]. by destruct (proj1 HR eq_refl) as [-> Hc].
      * intros (He & _ & Hc). by injection (proj2 HR (conj He Hc)) as ->.
Qed.

(** X25. The status section raises exactly when there is something out of
    service to show (a selected row whose [USE_YN] is not "사용가능",
    absent flags included) and one of the four columns of that table is
    missing, [USE_YN] among them; the exception is [KeyError].  As long as
    every facility of the station works, missing columns go unnoticed. *)
Theorem status_raises_iff (df : DataFrame) (targets : list str) (e : exn) :
  Sections.status df targets = Raise e <->
  e = KeyError
  /\ Sections.out_of_service (select df (py "STN_NM") targets) <> []
  /\ exists c, c ∈ Sections.status_columns /\ has_column df c = false.
Proof.
  unfold Sections.status.
  destruct (select df (py "STN_NM") targets) as [|row rest] eqn:Esel.
  - destruct (has_column df _); split; try done; by intros (_ & ? & _).
  - rewrite (select_has_column df _ targets row rest Esel).
    destruct (has_column df (py "USE_YN")) eqn:Euse.
    + destruct (Sections.out_of_service (row :: rest)) as [|b bad] eqn:Ebad.
      { split; [done|]. by intros (_ & ? & _). }
      pose proof (project_Raise df (b :: bad) Sections.status_columns e) as HR.
      destruct (Sections.project df (b :: bad) Sections.status_columns) as [t|e'].
      * split; [done|]. intros (He & _ & Hc). discriminate (proj2 HR (conj He Hc)).
      * cbn [mbind result_bind]. split.
        -- intros [= ->]. by destruct (proj1 HR eq_refl) as [-> Hc].
        -- intros (He & _ & Hc). by injection (proj2 HR (conj He Hc)) as ->.
    + split.
      * intros [= <-]. split; [done|]. split.
        -- intros Hnil'. pose proof (proj1 (out_of_service_nil _) Hnil') as Hnil.
           assert (Hrow : row ∈ df) by (apply (elem_of_select df (py "STN_NM") targets);
                                        rewrite Esel; left).
           rewrite (has_column_of_row df _ row Hrow) in Euse; [done|].
           rewrite (Hnil row ltac:(left)). by eexists.
        -- exists (py "USE_YN"). split; [|done]. do 3 right. left.
      * by intros (-> & _).
Qed.

(** X26. The table of the length section has one row per selected row, in
    the same order; equipment, number and operating section are the cells
    of that row, and the third cell is the text that the length rendering
    gives for its [PLF_PBADMS]. *)
Theorem lengths_table (df : DataFrame) (targets : list str) (cols : list str)
    (rows : list (list value)) :
  Sections.lengths df targets = Ok [Table cols rows] ->
  cols = Sections.length_columns
  /\ Forall2 (fun (r : record) row =>
       exists t, Presenter.length_text (cell r (py "PLF_PBADMS")) = Ok t
         /\ row = [cell r (py "EQPMNT"); cell r (py "NO"); VStr t;
                   cell r (py "OPR_SEC")])
     (select df (py "SBWY_STNS_NM") targets) rows.
Proof.
  unfold Sections.lengths. destruct (has_column df _); [|done].
  destruct (select df (py "SBWY_STNS_NM") targets) as [|row rest]; [done|].
  generalize (row :: rest). clear row rest. intros show.
  destruct (Sections.project df show Sections.length_columns) as [out|] eqn:Eout;
    [|done].
  cbn [mbind result_bind]. apply project_Ok in Eout as [-> _].
  unfold Presenter.length_column.
  destruct (mapM _ _) as [texts|] eqn:Etexts; [|done].
  cbn [mbind result_bind mret result_ret]. intros [= <- <-]. split; [done|].
  apply mapM_Ok in Etexts. unfold column in Etexts.
  revert texts Etexts. induction show as [|r show IH]; intros texts Etexts.
  - apply Forall2_nil_inv_l in Etexts as ->. constructor.
  - rewrite fmap_cons in Etexts.
    apply Forall2_cons_inv_l in Etexts as (t & texts' & Ht & Hrest & ->).
    rewrite fmap_cons. cbn [zip_with]. constructor; [|by apply IH].
    by exists t.
Qed.

Lemma lengths_table_witness :
  Forall2 (fun (r : record) row =>
       exists t, Presenter.length_text (cell r (py "PLF_PBADMS")) = Ok t
         /\ row = [cell r (py "EQPMNT"); cell r (py "NO"); VStr t;
                   cell r (py "OPR_SEC")])
     (select Sample.depth (py "SBWY_STNS_NM") [py "합정"])
     [ [VStr (py "EV"); VStr (py "1"); VStr (py "15 m"); VStr (py "B1-1F")];
       [VStr (py "ES"); VStr (py "2"); VStr (py "-"); VStr (py "B2-B1")] ].
Proof.
  refine (proj2 (lengths_table Sample.depth [py "합정"] Sections.length_columns _ _)).
  by vm_compute.
Defined.

(** X27. The length section raises in two ways, once a row of the station
    is selected: with [KeyError] when one of its four columns is missing
    from the table, and otherwise with [ValueError] when the length
    rendering raises on the [PLF_PBADMS] of a selected row.  A missing
    column is reported first. *)
Theorem lengths_raises_iff (df : DataFrame) (targets : list str) (e : exn) :
  Sections.lengths df targets = Raise e <->
  select df (py "SBWY_STNS_NM") targets <> []
  /\ ((e = KeyError
       /\ exists c, c ∈ Sections.length_columns /\ has_column df c = false)
      \/ (e = ValueError
          /\ (forall c, c ∈ Sections.length_columns -> has_column df c = true)
          /\ exists r : record, r ∈ select df (py "SBWY_STNS_NM") targets
               /\ Presenter.length_text (cell r (py "PLF_PBADMS")) = Raise ValueError)).
Proof.
  unfold Sections.lengths.
  destruct (select df (py "SBWY_STNS_NM") targets) as [|row rest] eqn:Esel.
  - destruct (has_column df _); split; try done; by intros [? _].
  - rewrite (select_has_column df _ targets row rest Esel).
    pose proof (project_Raise df (row :: rest) Sections.length_columns) as HR.
    destruct (Sections.project df (row :: rest) Sections.length_columns)
      as [out|e'] eqn:Eout.
    + cbn [mbind result_bind]. apply project_Ok in Eout as [_ Hcols].
      unfold Presenter.length_column.
      destruct (mapM _ _) as [texts|e'] eqn:Etexts; cbn [mbind result_bind].
      * split; [done|]. intros [_ [(_ & c & Hc & Hm)|(_ & _ & r & Hr & Hraise)]].
        -- rewrite (Hcols c Hc) in Hm. done.
        -- destruct (mapM_some_Raise Presenter.length_text
                       (column (row :: rest) (py "PLF_PBADMS"))
                       (cell r (py "PLF_PBADMS")) ValueError) as [e' He'];
             [|done|congruence].
           unfold column. apply list_elem_of_fmap. by exists r.
      * pose proof (mapM_Raise _ _ _ Etexts) as (v & Hv & Hraise).
        pose proof (length_text_ValueError _ _ Hraise) as ->.
        apply list_elem_of_fmap in Hv as (r & -> & Hr).
        split.
        -- intros [= <-]. split; [done|]. right. split; [done|]. split; [done|].
           by exists r.
        -- intros [_ [(_ & c & Hc & Hm)|(-> & _)]]; [|done].
           rewrite (Hcols c Hc) in Hm. done.
    + cbn [mbind result_bind]. destruct (HR e') as [HR1 _].
      destruct (HR1 eq_refl) as [-> (c & Hc & Hm)]. split.
      * intros [= <-]. split; [done|]. left. split; [done|]. by exists c.
      * intros [_ [(-> & _)|(_ & Hcols & _)]]; [done|].
        rewrite (Hcols c Hc) in Hm. done.
Qed.

(** ** The loader and the API key *)

(** X28. The page sizes of [load_all]: when the four data sets load, every
    request for the closures asked for at most 99 rows and every request
    for the other three for at most 999, each for at least one row, and
    each of the four logs starts with the probe of row 1. *)
Theorem load_all_page_sizes (get : str -> Z -> Z -> result (list (str * xml)))
    (c s d v : list (Z * Z) * xml) :
  load_all get = Ok (c, s, d, v) ->
  (forall lo hi, (lo, hi) ∈ c.1 -> (1 <= lo <= hi /\ hi - lo < 99)%Z)
  /\ (forall log, log ∈ [s.1; d.1; v.1] ->
        forall lo hi, (lo, hi) ∈ log -> (1 <= lo <= hi /\ hi - lo < 999)%Z)
  /\ (forall log, log ∈ [c.1; s.1; d.1; v.1] -> exists rest, log = (1, 1)%Z :: rest).
Proof.
  unfold load_all. cbn [mbind result_bind].
  destruct (fetch_xml_full (get (py "TbSubwayLineDetail")) 99)
    as [[lc rc]|] eqn:Ec; [|done]. cbn [mbind result_bind].
  destruct (fetch_xml_full (get (py "SeoulMetroFaciInfo")) 999)
    as [[ls rs]|] eqn:Es; [|done]. cbn [mbind result_bind].
  destruct (fetch_xml_full (get (py "SmrtScnFcltsInfo")) 999)
    as [[ld rd]|] eqn:Ed; [|done]. cbn [mbind result_bind].
  destruct (fetch_xml_full (get (py "TbSeoulmetroStConve")) 999)
    as [[lv rv]|] eqn:Ev; [|done]. cbn [mbind result_bind mret result_ret].
  intros [= <- <- <- <-]. cbn [fst].
  apply fetch_log_requested in Ec as (? & ? & tc & _ & _ & ->); [|done].
  apply fetch_log_requested in Es as (? & ? & ts & _ & _ & ->); [|done].
  apply fetch_log_requested in Ed as (? & ? & td & _ & _ & ->); [|done].
  apply fetch_log_requested in Ev as (? & ? & tv & _ & _ & ->); [|done].
  split; [|split].
  - intros lo hi Hin. by apply (requested_bounds tc 99).
  - intros log Hlog lo hi Hin.
    apply elem_of_cons in Hlog as [->|Hlog]; [by apply (requested_bounds ts 999)|].
    apply elem_of_cons in Hlog as [->|Hlog]; [by apply (requested_bounds td 999)|].
    apply elem_of_cons in Hlog as [->|Hlog]; [by apply (requested_bounds tv 999)|].
    by apply elem_of_nil in Hlog.
  - intros log Hlog. unfold requested in Hlog.
    repeat (apply elem_of_cons in Hlog as [->|Hlog]; [by eexists|]).
    by apply elem_of_nil in Hlog.
Qed.

Lemma load_all_page_sizes_witness : (1 <= 2 <= 3 /\ 3 - 2 < 99)%Z.
Proof.
  refine (proj1 (load_all_page_sizes Sample.get_any
            ([(1, 1); (2, 3)]%Z, XList Sample.db3) ([(1, 1); (2, 3)]%Z, XList Sample.db3)
            ([(1, 1); (2, 3)]%Z, XList Sample.db3) ([(1, 1); (2, 3)]%Z, XList Sample.db3)
            _) 2%Z 3%Z _).
  - by vm_compute.
  - right. left.
Defined.

(** X29. The key the page runs with: the page goes on with a key [k]
    exactly when [k] is not empty and is either the value of the
    environment variable, or the text in the secrets store while the
    variable is unset or empty.  An exception of the store stops the page
    like a missing key does. *)
Theorem api_key_iff (env_key : option str) (secret : result str) (k : str) :
  api_key env_key secret = Some k <->
  k <> []
  /\ (env_key = Some k \/ (truthy env_key = false /\ secret = Ok k)).
Proof.
  unfold api_key, get_api_key.
  destruct env_key as [[|c0 s0]|]; destruct secret as [[|c1 s1]|e];
    cbn [truthy]; split.
  all: try (intros H; simplify_eq; (split; [done|]); first [by left|by right]).
  all: intros [Hk [H|[H1 H2]]]; simplify_eq; done.
Qed.

(** ** From the resolver to the sections *)

Lemma resolve_stored (nmap : list (str * list str)) (query : str) :
  resolve_targets nmap query <> [] ->
  exists k, Dict.get nmap k = Some (resolve_targets nmap query).
Proof.
  intros Hne. destruct (Dict.get nmap (norm query)) as [rs|] eqn:E.
  - exists (norm query). unfold resolve_targets. by rewrite E.
  - destruct (resolve_fuzzy_hit nmap query E Hne) as (x & _ & Hx & _). by exists x.
Qed.

(** X30. A station that is found is shown: when each table has, of the
    three name columns, only the one its section filters on, every name
    the resolver returns selects a row in at least one of the four
    sections, so the four sections are never all empty. *)
Theorem found_station_is_shown (df_close df_status df_depth df_conv : DataFrame)
    (order : list str) (query r : str) :
  order ≡ₚ elements (raw_names [df_close; df_status; df_depth; df_conv]) ->
  own_name_column df_close (py "SBWY_STNS_NM") ->
  own_name_column df_status (py "STN_NM") ->
  own_name_column df_depth (py "SBWY_STNS_NM") ->
  own_name_column df_conv (py "STATION_NAME") ->
  r ∈ resolve_targets (n2r_from order) query ->
  exists (df : DataFrame) (col : str) (row : record),
    (df, col) ∈ section_tables df_close df_status df_depth df_conv
    /\ row ∈ select df col (resolve_targets (n2r_from order) query)
    /\ cell row col = VStr r.
Proof.
  intros Hperm Hc Hs Hd Hv Hr.
  destruct (resolve_stored (n2r_from order) query) as [k Hk].
  { intros E. rewrite E in Hr. by apply elem_of_nil in Hr. }
  rewrite n2r_from_get in Hk.
  assert (Hin : r ∈ order).
  { destruct (List.filter _ order) as [|x l] eqn:Ef; [done|].
    injection Hk as Hk. rewrite <- Hk, <- Ef in Hr.
    apply list_elem_of_In, filter_In in Hr as [Hr _]. by apply list_elem_of_In. }
  rewrite Hperm in Hin. apply elem_of_elements, elem_of_raw_names in Hin.
  destruct Hin as (df & col & row & Hdf & Hcol & Hrow & Hcell).
  assert (Hhas : has_column df col = true)
    by (apply (has_column_of_row df col row Hrow); rewrite Hcell; by eexists).
  assert (Hsel : row ∈ select df col (resolve_targets (n2r_from order) query)
                 /\ cell row col = VStr r).
  { split; [|by unfold cell; rewrite Hcell].
    unfold select. apply list_elem_of_In, filter_In. split; [by apply list_elem_of_In|].
    unfold cell. rewrite Hcell. cbn [isin]. by apply bool_decide_eq_true. }
  exists df, col, row. split; [|done]. unfold section_tables.
  apply elem_of_cons in Hdf as [->|Hdf]; [rewrite (Hc col Hcol Hhas); left|].
  apply elem_of_cons in Hdf as [->|Hdf];
    [rewrite (Hs col Hcol Hhas); right; left|].
  apply elem_of_cons in Hdf as [->|Hdf];
    [rewrite (Hd col Hcol Hhas); do 2 right; left|].
  apply elem_of_cons in Hdf as [->|Hdf];
    [rewrite (Hv col Hcol Hhas); do 3 right; left|].
  by apply elem_of_nil in Hdf.
Qed.

Lemma found_station_is_shown_witness :
  exists (df : DataFrame) (col : str) (row : record),
    (df, col) ∈ section_tables [] Sample.faci Sample.depth Sample.conv
    /\ row ∈ select df col
              (resolve_targets
                 (build_map [[]; Sample.faci; Sample.depth; Sample.conv]) (py "합정역"))
    /\ cell row col = VStr (py "합정").
Proof.
  assert (Hown : forall (df : DataFrame) (col : str),
            (forall c, c ∈ name_columns -> negb (has_column df c) || bool_decide (c = col) = true) ->
            own_name_column df col).
  { intros df col H c Hc Hhas. specialize (H c Hc). rewrite Hhas in H.
    by apply bool_decide_eq_true in H. }
  assert (Hcols : forall P : str -> Prop,
            P (py "STN_NM") -> P (py "SBWY_STNS_NM") -> P (py "STATION_NAME") ->
            forall c, c ∈ name_columns -> P c).
  { intros P H1 H2 H3 c Hc. unfold name_columns in Hc.
    apply elem_of_cons in Hc as [->|Hc]; [done|].
    apply elem_of_cons in Hc as [->|Hc]; [done|].
    apply elem_of_cons in Hc as [->|Hc]; [done|].
    by apply elem_of_nil in Hc. }
  refine (found_station_is_shown [] Sample.faci Sample.depth Sample.conv
            (elements (raw_names [[]; Sample.faci; Sample.depth; Sample.conv]))
            (py "합정역") (py "합정") _ _ _ _ _ _).
  - reflexivity.
  - apply Hown, Hcols; by vm_compute.
  - apply Hown, Hcols; by vm_compute.
  - apply Hown, Hcols; by vm_compute.
  - apply Hown, Hcols; by vm_compute.
  - apply list_elem_of_In. vm_compute. by left.
Defined.
